(** * The leaky-bucket load balancer of pkg/server/service/loadbalancer/lblb

  A shallow embedding of [lb.go]: the priority pool kept as a binary heap
  in [b.handlers], the per-backend token bucket, the health registry
  [b.status] with its updater hooks, and the selection loop [nextServer].

  Conventions.
  - Go's [int], [int64] and [time.Duration] are 64-bit; they are held as
    [Z] and the one place where the code can overflow (the conversion of
    the period from milliseconds to nanoseconds) wraps explicitly.
  - Slice indices and lengths are [nat]: [(j - 1) / 2] at [j = 0] is [0]
    both with Go's truncating division and with [nat] subtraction.
  - The balancer's mutex is not modelled: every operation is one atomic
    step of a sequential execution.  Log output is dropped.
  - The fields [serverAvailability] and [sticky] are written by [New] and
    never read again; they are left out. *)

From Stdlib Require Import ZArith Lia.
From stdpp Require Import base numbers list sorting gmap sets strings pretty.

(** ** Fixed-width integers *)

Definition wrap64 (z : Z) : Z := ((z + 2 ^ 63) mod 2 ^ 64 - 2 ^ 63)%Z.

(** [time.Time] as nanoseconds on the monotonic clock, [time.Duration] as
    nanoseconds. *)
Definition Time := Z.
Definition Duration := Z.
Definition Millisecond : Duration := 1000000%Z.

(** ** Imported interfaces *)

(** [heap.Interface] of container/heap ([sort.Interface] with [Push] and
    [Pop]).  [Pop] is partial: the implementation in lb.go indexes
    [len - 1] and panics on an empty slice. *)
Class heap_Interface (T X : Type) := {
  Len : T → nat;
  Less : T → nat → nat → bool;
  Swap : T → nat → nat → T;
  Push : T → X → T;
  Pop : T → option (X * T);
}.

(** The part of [*rate.Limiter] (golang.org/x/time/rate) that lb.go calls.
    The package is imported, so the limiter is a parameter of the
    development: [NewLimiterEvery d b] is
    [rate.NewLimiter(rate.Every(d), b)] and [Allow now lim] is one call of
    [lim.Allow()] that reads the clock at [now], giving the decision and
    the limiter's next state. *)
Class rate_Limiter (L : Type) := {
  NewLimiterEvery : Duration → Z → L;
  Allow : Time → L → bool * L;
}.

(** ** container/heap *)

Module heap.
Section heap.
Context {T X : Type} `{!heap_Interface T X}.

(** Modelled from the spec: container/heap is Go's standard library and
    not under src/; the pool is "a binary min-heap keyed by ascending
    priority" with insert and extract-min.  The definitions below are the
    sift loops [up] and [down] of that package and its [Push] and [Pop],
    with the loop counter made explicit: [j] falls strictly in [up], and
    [i] rises strictly towards [n] in [down].

    [up_loop]: [for { i := (j - 1) / 2; if i == j || !h.Less(j, i)
    { break }; h.Swap(i, j); j = i }]. *)
Fixpoint up_loop (fuel : nat) (h : T) (j : nat) : T :=
  match fuel with
  | O => h
  | S fuel' =>
      let i := (j - 1) / 2 in
      if (i =? j) || negb (Less h j i) then h
      else up_loop fuel' (Swap h i j) i
  end.

(** Modelled from the spec: [up(h, j)] of container/heap; [j] passes are
    all the loop can make. *)
Definition up (h : T) (j : nat) : T := up_loop j h j.

(** Modelled from the spec: the loop of [down] of container/heap,
    [for { j1 := 2*i + 1; if j1 >= n { break }; j := j1;
    if j2 := j1 + 1; j2 < n && h.Less(j2, j1) { j = j2 };
    if !h.Less(j, i) { break }; h.Swap(i, j); i = j }].  The result
    [i > i0] of [down] is not used by [Push] and [Pop]. *)
Fixpoint down_loop (fuel : nat) (h : T) (i n : nat) : T :=
  match fuel with
  | O => h
  | S fuel' =>
      let j1 := 2 * i + 1 in
      if n <=? j1 then h
      else
        let j := if (j1 + 1 <? n) && Less h (j1 + 1) j1 then j1 + 1 else j1 in
        if negb (Less h j i) then h
        else down_loop fuel' (Swap h i j) j n
  end.

(** Modelled from the spec: [down(h, i0, n)] of container/heap; [n]
    passes are all the loop can make. *)
Definition down (h : T) (i0 n : nat) : T := down_loop n h i0 n.

(** Modelled from the spec: [heap.Push(h, x)] of container/heap,
    [h.Push(x); up(h, h.Len()-1)].  The [Push] of the body is the method
    of the interface. *)
Definition Push (h : T) (x : X) : T :=
  let h := Push h x in
  up h (Len h - 1).

(** Modelled from the spec: [heap.Pop(h)] of container/heap,
    [n := h.Len() - 1; h.Swap(0, n); down(h, 0, n); return h.Pop()]. *)
Definition Pop (h : T) : option (X * T) :=
  let n := Len h - 1 in
  let h := Swap h 0 n in
  let h := down h 0 n in
  Pop h.
End heap.
End heap.

(** ** Package lblb *)

Module lblb.
Section lblb.
(** [http.Handler] values, updater hooks [func(bool)] and the limiter are
    opaque to the balancer. *)
Context {Handler_t Updater Limiter : Type} `{!rate_Limiter Limiter}.

Definition error := string.

Record namedHandler := mkNamedHandler {
  Handler : Handler_t;
  name : string;
  burst : Z;
  average : Z;
  period : Duration;
  priority : Z;
  bucket : Limiter;
  canAllow : bool;
}.

(** [handlers] is a slice of [*namedHandler].  Every pointer is created by
    [Add], sits in exactly one slot of the slice or of [poppedHandlers],
    and is only written through while it is out of the slice, so a slot
    holds the pointee itself. *)
Record LBBalancer := mkLBBalancer {
  wantsHealthCheck : bool;
  handlers : list namedHandler;
  status : gset string;
  updaters : list Updater;
}.

Definition with_handlers (b : LBBalancer) (hs : list namedHandler) : LBBalancer :=
  {| wantsHealthCheck := wantsHealthCheck b; handlers := hs;
     status := status b; updaters := updaters b |}.

Definition with_status (b : LBBalancer) (st : gset string) : LBBalancer :=
  {| wantsHealthCheck := wantsHealthCheck b; handlers := handlers b;
     status := st; updaters := updaters b |}.

Definition with_updaters (b : LBBalancer) (us : list Updater) : LBBalancer :=
  {| wantsHealthCheck := wantsHealthCheck b; handlers := handlers b;
     status := status b; updaters := us |}.

(** [New(sticky, wantHealthCheck)]. *)
Definition New (wantHealthCheck : bool) : LBBalancer :=
  {| wantsHealthCheck := wantHealthCheck; handlers := [];
     status := ∅; updaters := [] |}.

(** [b.handlers[i], b.handlers[j] = b.handlers[j], b.handlers[i]].  Go
    panics on an index out of range; container/heap only passes indices
    below [Len]. *)
Definition swap_slots (hs : list namedHandler) (i j : nat) : list namedHandler :=
  match hs !! i, hs !! j with
  | Some x, Some y => <[i := y]> (<[j := x]> hs)
  | _, _ => hs
  end.

Definition less_slots (hs : list namedHandler) (i j : nat) : bool :=
  match hs !! i, hs !! j with
  | Some x, Some y => (priority x <? priority y)%Z
  | _, _ => false
  end.

(** [Len], [Less], [Swap], [Push] and [Pop] of [*LBBalancer]. *)
#[global] Instance LBBalancer_heap : heap_Interface LBBalancer namedHandler := {
  Len b := length (handlers b);
  Less b i j := less_slots (handlers b) i j;
  Swap b i j := with_handlers b (swap_slots (handlers b) i j);
  Push b h := with_handlers b (handlers b ++ [h]);
  Pop b :=
    match last (handlers b) with
    | Some h => Some (h, with_handlers b (take (length (handlers b) - 1) (handlers b)))
    | None => None
    end;
}.

(** [SetStatus(ctx, childName, up)], with the calls [fn(upAfter)] it makes
    to the updaters, in order. *)
Definition SetStatus (b : LBBalancer) (childName : string) (up : bool)
  : LBBalancer * list (Updater * bool) :=
  let upBefore := 0 <? size (status b) in
  let b :=
    if up then with_status b ({[childName]} ∪ status b)
    else with_status b (status b ∖ {[childName]}) in
  let upAfter := 0 <? size (status b) in
  if Bool.eqb upBefore upAfter then (b, [])
  else (b, (λ fn, (fn, upAfter)) <$> updaters b).

Definition errHealthCheckNotEnabled : error :=
  "healthCheck not enabled in config for this leaky bucket service".

(** [RegisterStatusUpdater(fn)]; [None] is Go's [nil] error. *)
Definition RegisterStatusUpdater (b : LBBalancer) (fn : Updater)
  : LBBalancer * option error :=
  if negb (wantsHealthCheck b) then (b, Some errHealthCheckNotEnabled)
  else (with_updaters b (updaters b ++ [fn]), None).

Definition errNoAvailableServer : error := "no available server".

(** [for _, handler := range poppedHandlers { heap.Push(b, handler) }]. *)
Definition push_back (b : LBBalancer) (poppedHandlers : list namedHandler) : LBBalancer :=
  foldl heap.Push b poppedHandlers.

(** [handler.canAllow = handler.bucket.Allow()]. *)
Definition admit_at (now : Time) (handler : namedHandler) : namedHandler :=
  let decision := Allow now (bucket handler) in
  {| Handler := Handler handler; name := name handler; burst := burst handler;
     average := average handler; period := period handler;
     priority := priority handler; bucket := decision.2;
     canAllow := decision.1 |}.

(** The [for] loop of [nextServer].  [clock k] is the reading of
    [time.Now()] inside the [k]-th call of [Allow] of this round.  The
    result carries the balancer after the reinsertions, the final
    [poppedHandlers] and the handler the loop broke on, if any.  [None]
    stands for a run that does not complete: the counter is used up or
    [heap.Pop] panics. *)
Fixpoint nextServer_loop (fuel : nat) (clock : nat → Time) (b : LBBalancer)
    (poppedHandlers : list namedHandler)
  : option (LBBalancer * list namedHandler * option namedHandler) :=
  match fuel with
  | O => None
  | S fuel' =>
      if Len b =? 0 then Some (push_back b poppedHandlers, poppedHandlers, None)
      else
        match heap.Pop b with
        | None => None
        | Some (handler, b) =>
            let handler := admit_at (clock (length poppedHandlers)) handler in
            let poppedHandlers := poppedHandlers ++ [handler] in
            if bool_decide (name handler ∈ status b) && canAllow handler
            then Some (push_back b poppedHandlers, poppedHandlers, Some handler)
            else nextServer_loop fuel' clock b poppedHandlers
        end
  end.

(** [nextServer()].  Each pass through the loop pops one handler, so
    [Len b] passes and one more for the final test are all it can make. *)
Definition nextServer (b : LBBalancer) (clock : nat → Time)
  : option (LBBalancer * (namedHandler + error)) :=
  if (length (handlers b) =? 0) || (size (status b) =? 0)
  then Some (b, inr errNoAvailableServer)
  else
    match nextServer_loop (S (Len b)) clock b [] with
    | None => None
    | Some (b, _, Some handler) => Some (b, inl handler)
    | Some (b, _, None) => Some (b, inr errNoAvailableServer)
    end.

(** What [ServeHTTP] does with the response writer: [http.Error] with a
    message and a status code, or the delegation
    [server.ServeHTTP(w, req)]. *)
Inductive response :=
| http_Error (msg : string) (code : Z)
| served_by (server : namedHandler).

Definition StatusServiceUnavailable : Z := 503.
Definition StatusInternalServerError : Z := 500.

(** [ServeHTTP(w, req)]. *)
Definition ServeHTTP (b : LBBalancer) (clock : nat → Time)
  : option (LBBalancer * response) :=
  if (length (handlers b) =? 0) || (size (status b) =? 0)
  then Some (b, http_Error errNoAvailableServer StatusServiceUnavailable)
  else
    match nextServer b clock with
    | None => None
    | Some (b, inr err) =>
        if bool_decide (err = errNoAvailableServer)
        then Some (b, http_Error errNoAvailableServer StatusServiceUnavailable)
        else Some (b, http_Error err StatusInternalServerError)
    | Some (b, inl server) => Some (b, served_by server)
    end.

(** [Add(name, handler, burst, average, period, priority)]; the four
    [*int] arguments are [None] when [nil]. *)
Definition Add (b : LBBalancer) (name_ : string) (handler : Handler_t)
    (burst_ average_ period_ priority_ : option Z) : LBBalancer :=
  let bu := default 1%Z burst_ in
  let bu := if (bu <=? 1)%Z then 1%Z else bu in
  let a := default 1%Z average_ in
  if (a <=? 0)%Z then b
  else
    let p := default 1%Z period_ in
    let p := if (p <=? 0)%Z then 1%Z else p in
    let prio := default 1%Z priority_ in
    let prio := if (prio <=? 0)%Z then 1%Z else prio in
    let bucket_ := NewLimiterEvery (wrap64 (Millisecond * p) ÷ a)%Z bu in
    let h := {| Handler := handler; name := name_; burst := bu; average := a;
                period := wrap64 (Millisecond * p); priority := prio;
                bucket := bucket_; canAllow := true |} in
    let b := heap.Push b h in
    with_status b ({[name_]} ∪ status b).

(** *** Notions used to state the properties *)

(** What [Add] fixes in an entry for good: everything but the state of the
    token bucket and the cached decision [canAllow], the two fields the
    admission check writes. *)
Definition entry (h : namedHandler)
  : Handler_t * string * Z * Z * Duration * Z :=
  (Handler h, name h, burst h, average h, period h, priority h).

(** The heap order on the slice: the handler of a slot has a priority
    value at least that of its parent slot [(k - 1) / 2]. *)
Definition heap_ordered (hs : list namedHandler) : Prop :=
  ∀ k x y, 0 < k → hs !! k = Some y → hs !! ((k - 1) / 2) = Some x →
    (priority x ≤ priority y)%Z.

(** The test of line 183: healthy and admitted. *)
Definition eligible (b : LBBalancer) (handler : namedHandler) : bool :=
  bool_decide (name handler ∈ status b) && canAllow handler.

(** The priority read at a slot, as [Less] reads it. *)
Definition prio_at (hs : list namedHandler) (k : nat) : Z :=
  match hs !! k with Some x => priority x | None => 0%Z end.

(** The slice during [up]: heap-ordered but for the link from slot [j] to
    its parent, and the slots below [j] already respect the parent of
    [j]. *)
Definition up_inv (hs : list namedHandler) (j : nat) : Prop :=
  (∀ k, 0 < k < length hs → k ≠ j →
     (prio_at hs ((k - 1) / 2) ≤ prio_at hs k)%Z) ∧
  (∀ k, 0 < k < length hs → 0 < j → (k - 1) / 2 = j →
     (prio_at hs ((j - 1) / 2) ≤ prio_at hs k)%Z).

(** The first [n] slots during [down]: heap-ordered but for the links
    from the children of slot [i] to [i], and those children already
    respect the parent of [i]. *)
Definition down_inv (hs : list namedHandler) (i n : nat) : Prop :=
  (∀ k, 0 < k < n → (k - 1) / 2 ≠ i →
     (prio_at hs ((k - 1) / 2) ≤ prio_at hs k)%Z) ∧
  (∀ k, 0 < k < n → 0 < i → (k - 1) / 2 = i →
     (prio_at hs ((i - 1) / 2) ≤ prio_at hs k)%Z).

(** The passes of the loop of [nextServer] as a relation: from the
    balancer [b] and the list [popped] on entry to the balancer and the
    list on exit, before the reinsertions, with the handler the loop
    broke on. *)
Inductive scan (clock : nat → Time)
  : LBBalancer → list namedHandler →
    LBBalancer → list namedHandler → option namedHandler → Prop :=
| scan_drained b popped :
    Len b = 0 →
    scan clock b popped b popped None
| scan_break b popped handler b1 :
    0 < Len b →
    heap.Pop b = Some (handler, b1) →
    eligible b1 (admit_at (clock (length popped)) handler) = true →
    scan clock b popped
         b1 (popped ++ [admit_at (clock (length popped)) handler])
         (Some (admit_at (clock (length popped)) handler))
| scan_skip b popped handler b1 b2 popped2 chosen :
    0 < Len b →
    heap.Pop b = Some (handler, b1) →
    eligible b1 (admit_at (clock (length popped)) handler) = false →
    scan clock b1 (popped ++ [admit_at (clock (length popped)) handler])
         b2 popped2 chosen →
    scan clock b popped b2 popped2 chosen.

(** The handlers of [scanned] after their admission checks, the first of
    them being the [k]-th check of the round. *)
Definition admitted (clock : nat → Time) (k : nat) (scanned : list namedHandler)
  : list namedHandler :=
  imap (λ i handler, admit_at (clock (k + i)) handler) scanned.

(** *** Histories of calls *)

(** The exported operations, as a client can call them. *)
Inductive Call :=
| call_Add (name_ : string) (handler : Handler_t)
           (burst_ average_ period_ priority_ : option Z)
| call_SetStatus (childName : string) (up : bool)
| call_RegisterStatusUpdater (fn : Updater)
| call_ServeHTTP (clock : nat → Time).

Definition step (b : LBBalancer) (c : Call) : LBBalancer :=
  match c with
  | call_Add n h bu a p prio => Add b n h bu a p prio
  | call_SetStatus n up => (SetStatus b n up).1
  | call_RegisterStatusUpdater fn => (RegisterStatusUpdater b fn).1
  | call_ServeHTTP clock =>
      match ServeHTTP b clock with Some (b', _) => b' | None => b end
  end.

Definition run (b : LBBalancer) (calls : list Call) : LBBalancer :=
  foldl step b calls.

Definition reachable (b : LBBalancer) : Prop :=
  ∃ wantHealthCheck calls, b = run (New wantHealthCheck) calls.


(** The names of the entries in the pool. *)
Definition pool_names (b : LBBalancer) : list string := name <$> handlers b.

(** A history in which [SetStatus] marks up only children that are in
    the pool at the time of the call. *)
Fixpoint marks_known_children (b : LBBalancer) (calls : list Call) : Prop :=
  match calls with
  | [] => True
  | c :: calls =>
      match c with
      | call_SetStatus n true => n ∈ pool_names b
      | _ => True
      end ∧ marks_known_children (step b c) calls
  end.

(** [c] is a call of [Add] under the name [n] that gets past the test
    [a <= 0]. *)
Definition creates (n : string) (c : Call) : bool :=
  match c with
  | call_Add n' _ _ a _ _ => bool_decide (n' = n) && (0 <? default 1 a)%Z
  | _ => false
  end.

(** *** More about histories *)

(** The updaters that the calls of [RegisterStatusUpdater] of a history
    hand in, in order. *)
Definition registered (calls : list Call) : list Updater :=
  omap (λ c, match c with
             | call_RegisterStatusUpdater fn => Some fn
             | _ => None
             end) calls.

(** The names under which the calls of [Add] of a history get past the
    test [a <= 0], in order. *)
Definition created (calls : list Call) : list string :=
  omap (λ c, match c with
             | call_Add n _ _ a _ _ =>
                 if (0 <? default 1 a)%Z then Some n else None
             | _ => None
             end) calls.

(** [SetStatus(ctx, name, false)] for each of [names] in turn, with the
    calls made to the updaters on the way. *)
Definition mark_down_all (b : LBBalancer) (names : list string)
  : LBBalancer * list (Updater * bool) :=
  foldl (λ acc n, ((SetStatus acc.1 n false).1,
                   acc.2 ++ (SetStatus acc.1 n false).2))
        (b, []) names.

(** [dynamic.Server], as far as [AddServer] reads it. *)
Record Server := mkServer {
  Burst : option Z;
  Average : option Z;
  Period : option Z;
  Priority : option Z;
}.

(** [AddServer(name, handler, server)]. *)
Definition AddServer (b : LBBalancer) (name_ : string) (handler : Handler_t)
    (server : Server) : LBBalancer :=
  Add b name_ handler (Burst server) (Average server) (Period server)
    (Priority server).

(** [newTestBalancer(bucketCount)] of the benchmark: [bucketCount] backends
    "srv-0", "srv-1", ... with burst and average 1000000, period 1 and
    priority 1 on a balancer without health check. *)
Definition newTestBalancer (handler : Handler_t) (bucketCount : nat) : LBBalancer :=
  foldl (λ b i, Add b ("srv-" +:+ pretty i) handler
                  (Some 1000000%Z) (Some 1000000%Z) (Some 1%Z) (Some 1%Z))
        (New false) (seq 0 bucketCount).
End lblb.

Section tree.
Context {Handler_t Updater Limiter : Type} `{!rate_Limiter Limiter}.

(** The hook that lb_test.go registers on a balancer that is a child of
    another, [func(up bool) { topBalancer.SetStatus(ctx, "balancer1", up) }],
    is given by the name of the child's entry in the parent.  [notify] runs
    on the parent the calls that such hooks have received. *)
Definition notify (parent : @LBBalancer Handler_t Updater Limiter)
    (calls : list (string * bool)) : @LBBalancer Handler_t Updater Limiter :=
  foldl (λ p call, (SetStatus p call.1 call.2).1) parent calls.
End tree.
End lblb.

(** ** The token bucket *)

Module rate.
(** Modelled from the spec: golang.org/x/time/rate is an imported package
    and not under src/.  "Per-entry token bucket: capacity = sanitized
    burst, refill rate = average tokens per sanitized period. [...]
    allow(): evaluates current token availability against elapsed
    wall-clock time since last check; if a token is available, it is
    consumed and true is returned; otherwise false is returned and no
    token is consumed."  The package computes with float64 tokens; here
    the fill is exact, counted in nanoseconds of refill, so that one
    token is [interval] of them and a full bucket [burst * interval].  As
    in the package, [rate.Every(d)] with [d <= 0] is the infinite rate,
    which allows everything. *)
Record Limiter := mkLimiter {
  interval : Duration;
  burst : Z;
  fill : Z;
  last : Time;
}.

(** Modelled from the spec: [rate.NewLimiter(rate.Every(every), b)], a
    bucket that starts full.  [last] starts at the zero time, which no
    reading of the clock precedes. *)
Definition NewLimiter (every : Duration) (b : Z) : Limiter :=
  {| interval := every; burst := b; fill := (b * every)%Z; last := 0%Z |}.

(** Modelled from the spec: the fill at [now], "against elapsed
    wall-clock time since last check": what has been refilled since
    [last], up to the capacity. *)
Definition advance (lim : Limiter) (now : Time) : Z :=
  let last_ := Z.min (last lim) now in
  let elapsed := (now - last_)%Z in
  Z.min (burst lim * interval lim) (fill lim + elapsed)%Z.

(** Modelled from the spec: [lim.Allow()] with the clock at [now]: "if a
    token is available, it is consumed and true is returned; otherwise
    false is returned and no token is consumed". *)
Definition Allow (now : Time) (lim : Limiter) : bool * Limiter :=
  if (interval lim <=? 0)%Z then (true, lim)
  else
    let tokens := (advance lim now - interval lim)%Z in
    if (0 <=? tokens)%Z && (1 <=? burst lim)%Z
    then (true, {| interval := interval lim; burst := burst lim;
                   fill := tokens; last := now |})
    else (false, lim).

(** Modelled from the spec: the token bucket as the limiter of the
    balancer. *)
#[global] Instance token_bucket : rate_Limiter Limiter := {
  NewLimiterEvery := NewLimiter;
  Allow := Allow;
}.
End rate.

(** ** Scenarios *)

Module scenario.
Import lblb.
Local Open Scope Z_scope.

(** Balancers over the token bucket, with handlers that carry nothing and
    updaters told apart by a number. *)
Definition Balancer : Type := @LBBalancer unit nat rate.Limiter.
Definition Handler : Type := @namedHandler unit rate.Limiter.
Definition Op : Type := @Call unit nat.

(** The backends of [TestLBBalancer]: "A" with priority 1, burst 1 and one
    token per 3 ms, "B" with priority 2, burst 1 and one token per 2 ms,
    "C" with priority 3, burst 2 and one token per 1 ms. *)
Definition three_backends_calls : list Op :=
  [call_Add "A" tt (Some 1) (Some 1) (Some 3) (Some 1);
   call_Add "B" tt (Some 1) (Some 1) (Some 2) (Some 2);
   call_Add "C" tt (Some 2) (Some 1) (Some 1) (Some 3)].

Section any_limiter.
Context {Limiter : Type} `{!rate_Limiter Limiter}.

Definition three_backends : @LBBalancer unit nat Limiter :=
  run (New false) three_backends_calls.

(** Calls of [ServeHTTP] at the given times, one after the other, with
    the name of the handler that serves each ([None] for an error
    response). *)
Fixpoint dispatches (b : @LBBalancer unit nat Limiter) (times : list Time)
  : list (option string) :=
  match times with
  | [] => []
  | t :: times =>
      match ServeHTTP b (λ _, t) with
      | Some (b', served_by h) => Some (name h) :: dispatches b' times
      | Some (b', http_Error _ _) => None :: dispatches b' times
      | None => []
      end
  end.
End any_limiter.

(** A limiter given by its two operations. *)
Definition limiter_of {Limiter : Type} (new : Duration → Z → Limiter)
    (allow : Time → Limiter → bool * Limiter) : rate_Limiter Limiter :=
  {| NewLimiterEvery := new; Allow := allow |}.

Definition times_served (n : string) (served : list (option string)) : nat :=
  length (filter (λ s, s = Some n) served).

(** Two backends of which the first in line, "A", is down. *)
Definition first_down : Balancer :=
  run (New false)
    [call_Add "A" tt (Some 1) (Some 1) (Some 3) (Some 1);
     call_Add "B" tt (Some 1) (Some 1) (Some 2) (Some 2);
     call_SetStatus "A" false].

(** The fill of the bucket of each entry, by name, in the order of the
    slice. *)
Definition fills (b : Balancer) : list (string * Z) :=
  (λ h, (name h, rate.fill (bucket h))) <$> handlers b.

(** One call of [ServeHTTP] at time [t]: who serves it, and the fills
    after it. *)
Definition serve_at (b : Balancer) (t : Time)
  : option (option string * list (string * Z)) :=
  match ServeHTTP b (λ _, t) with
  | Some (b', served_by h) => Some (Some (name h), fills b')
  | Some (b', http_Error _ _) => Some (None, fills b')
  | None => None
  end.

(** A period of 9223372036855 ms, one more than what 64 bits hold in
    nanoseconds. *)
Definition long_period : Balancer :=
  Add (New false) "far" tt (Some 1) (Some 1) (Some 9223372036855) (Some 1).

(** The balancer after one call of [ServeHTTP] at time [t]. *)
Definition state_after (b : Balancer) (t : Time) : Balancer :=
  match ServeHTTP b (λ _, t) with Some (b', _) => b' | None => b end.

(** An entry with average 1, given by its name, priority, burst and period
    and by the state of its bucket. *)
Definition backend (n : string) (prio bu per fill_ last_ : Z) (ok : bool)
  : Handler :=
  mkNamedHandler tt n bu 1 per prio (rate.mkLimiter per bu fill_ last_) ok.

(** The tree of [TestLBBalancerPropagate], as far as "balancer2" goes: a
    child with the backends "third" and "fourth" whose hook reports to the
    entry "balancer2" of the top balancer. *)
Definition balancer2 : @LBBalancer unit string rate.Limiter :=
  run (New true)
    [call_Add "third" tt (Some 1) (Some 1) (Some 1) (Some 3);
     call_Add "fourth" tt (Some 1) (Some 1) (Some 1) (Some 4);
     call_RegisterStatusUpdater "balancer2"].

Definition topBalancer : Balancer :=
  run (New true)
    [call_Add "balancer1" tt (Some 1) (Some 4) (Some 1) (Some 1);
     call_Add "balancer2" tt (Some 1) (Some 4) (Some 1) (Some 1)].
End scenario.

(** * Properties *)

Module heap_proofs.
Section loops.
Context {T X : Type} `{!heap_Interface T X}.

(** The counters of [up] and [down] never run out: with [j] passes for
    [up] and [n - i] for [down] the loops end by their own tests, so that
    more passes change nothing. *)
Lemma up_loop_fuel fuel1 fuel2 (h : T) j :
  j ≤ fuel1 → j ≤ fuel2 → heap.up_loop fuel1 h j = heap.up_loop fuel2 h j.
Proof.
  revert fuel2 h j. induction fuel1 as [|fuel1 IH]; intros [|fuel2] h j H1 H2;
    cbn [heap.up_loop]; [done| | |].
  - replace j with 0 by lia. done.
  - replace j with 0 by lia. done.
  - destruct (decide (j = 0)) as [->|Hj]; [done|].
    destruct (_ || _); [done|].
    assert ((j - 1) / 2 < j) by (apply Nat.Div0.div_lt_upper_bound; lia).
    apply IH; lia.
Qed.

Lemma down_loop_fuel fuel1 fuel2 (h : T) i n :
  n ≤ fuel1 + i → n ≤ fuel2 + i →
  heap.down_loop fuel1 h i n = heap.down_loop fuel2 h i n.
Proof.
  revert fuel2 h i. induction fuel1 as [|fuel1 IH]; intros [|fuel2] h i H1 H2;
    cbn [heap.down_loop]; [done| | |].
  - by rewrite (proj2 (Nat.leb_le n (2 * i + 1))) by lia.
  - by rewrite (proj2 (Nat.leb_le n (2 * i + 1))) by lia.
  - destruct (n <=? 2 * i + 1); [done|].
    destruct (_ && _); (destruct (negb _); [done|]); apply IH; lia.
Qed.
End loops.
End heap_proofs.

Module lblb_proofs.
Import lblb.

Section pool.
Context {Handler_t Updater Limiter : Type} `{!rate_Limiter Limiter}.
Abbreviation NH := (@namedHandler Handler_t Limiter).
Abbreviation LB := (@LBBalancer Handler_t Updater Limiter).
Implicit Types (hs scanned popped : list NH) (b : LB) (h x y : NH).

(** *** Swapping two slots *)

Lemma swap_slots_length hs i j : length (swap_slots hs i j) = length hs.
Proof.
  unfold swap_slots. destruct (hs !! i), (hs !! j); trivial.
  by rewrite !length_insert.
Qed.

Lemma swap_slots_lookup hs i j k :
  i < length hs → j < length hs →
  swap_slots hs i j !! k =
    if decide (k = i) then hs !! j else if decide (k = j) then hs !! i else hs !! k.
Proof.
  intros Hi Hj. unfold swap_slots.
  destruct (lookup_lt_is_Some_2 hs i Hi) as [x Hx].
  destruct (lookup_lt_is_Some_2 hs j Hj) as [y Hy].
  rewrite Hx, Hy.
  destruct (decide (k = i)) as [->|Hki].
  - rewrite list_lookup_insert_eq; [done|]. by rewrite length_insert.
  - rewrite list_lookup_insert_ne by done.
    destruct (decide (k = j)) as [->|Hkj].
    + by rewrite list_lookup_insert_eq.
    + by rewrite list_lookup_insert_ne.
Qed.

Lemma swap_slots_perm hs i j : swap_slots hs i j ≡ₚ hs.
Proof.
  destruct (decide (i < length hs)) as [Hi|Hi]; last first.
  { unfold swap_slots. rewrite (lookup_ge_None_2 hs i) by lia. done. }
  destruct (decide (j < length hs)) as [Hj|Hj]; last first.
  { unfold swap_slots. rewrite (lookup_ge_None_2 hs j) by lia.
    by destruct (hs !! i). }
  apply Permutation_inj. split; [apply swap_slots_length|].
  exists (λ k, if decide (k = i) then j else if decide (k = j) then i else k).
  split.
  - intros k1 k2. repeat case_decide; lia.
  - intros k. rewrite swap_slots_lookup by done.
    repeat case_decide; subst; done.
Qed.

(** *** The priority of a slot *)

Lemma prio_at_lookup hs k x : hs !! k = Some x → prio_at hs k = priority x.
Proof. unfold prio_at. by intros ->. Qed.

Lemma prio_at_swap hs i j k :
  i < length hs → j < length hs →
  prio_at (swap_slots hs i j) k =
    if decide (k = i) then prio_at hs j
    else if decide (k = j) then prio_at hs i else prio_at hs k.
Proof.
  intros Hi Hj. unfold prio_at. rewrite swap_slots_lookup by done.
  by repeat case_decide.
Qed.

Lemma less_slots_prio hs i j :
  i < length hs → j < length hs →
  less_slots hs i j = (prio_at hs i <? prio_at hs j)%Z.
Proof.
  intros Hi Hj. unfold less_slots, prio_at.
  destruct (lookup_lt_is_Some_2 hs i Hi) as [x ->].
  by destruct (lookup_lt_is_Some_2 hs j Hj) as [y ->].
Qed.

Lemma heap_ordered_prio hs :
  heap_ordered hs ↔
  ∀ k, 0 < k < length hs → (prio_at hs ((k - 1) / 2) ≤ prio_at hs k)%Z.
Proof.
  split.
  - intros Hh k Hk.
    assert ((k - 1) / 2 < length hs) as Hp.
    { apply Nat.Div0.div_lt_upper_bound. lia. }
    destruct (lookup_lt_is_Some_2 hs k) as [y Hy]; [lia|].
    destruct (lookup_lt_is_Some_2 hs _ Hp) as [x Hx].
    rewrite (prio_at_lookup _ _ _ Hx), (prio_at_lookup _ _ _ Hy).
    apply (Hh k); [lia|done..].
  - intros Hh k x y Hk Hy Hx.
    rewrite <-(prio_at_lookup _ _ _ Hx), <-(prio_at_lookup _ _ _ Hy).
    apply Hh. apply lookup_lt_Some in Hy. lia.
Qed.

Lemma parent_lt k : 0 < k → (k - 1) / 2 < k.
Proof. intros. apply Nat.Div0.div_lt_upper_bound. lia. Qed.

Lemma parent_child k i : (k - 1) / 2 = i → 0 < k → k = 2 * i + 1 ∨ k = 2 * i + 2.
Proof.
  intros <- Hk. pose proof (Nat.div_mod_eq (k - 1) 2) as Hd.
  pose proof (Nat.mod_upper_bound (k - 1) 2). lia.
Qed.

Lemma child_parent_l i : (2 * i + 1 - 1) / 2 = i.
Proof. replace (2 * i + 1 - 1) with (i * 2) by lia. apply Nat.div_mul. lia. Qed.

Lemma child_parent_r i : (2 * i + 2 - 1) / 2 = i.
Proof.
  replace (2 * i + 2 - 1) with (1 + i * 2) by lia.
  rewrite Nat.div_add by lia. done.
Qed.

(** *** [up] *)

Lemma up_loop_frame fuel b j :
  wantsHealthCheck (heap.up_loop fuel b j) = wantsHealthCheck b ∧
  status (heap.up_loop fuel b j) = status b ∧
  updaters (heap.up_loop fuel b j) = updaters b ∧
  handlers (heap.up_loop fuel b j) ≡ₚ handlers b.
Proof.
  revert b j. induction fuel as [|fuel IH]; intros b j; simpl; [done|].
  destruct (_ || _); [done|].
  specialize (IH (Swap b ((j - 1) / 2) j) ((j - 1) / 2)). simpl in IH.
  destruct IH as (-> & -> & -> & ->). by rewrite swap_slots_perm.
Qed.

Lemma up_inv_root hs : up_inv hs 0 → heap_ordered hs.
Proof.
  intros [H1 _]. apply heap_ordered_prio. intros k Hk. apply H1; lia.
Qed.

Lemma up_inv_swap hs j :
  0 < j < length hs → up_inv hs j →
  (prio_at hs j < prio_at hs ((j - 1) / 2))%Z →
  up_inv (swap_slots hs ((j - 1) / 2) j) ((j - 1) / 2).
Proof.
  intros Hj [H1 H2] Hlt.
  pose proof (parent_lt j) as Hpj.
  split.
  - intros k Hk Hki. rewrite swap_slots_length in Hk.
    rewrite !prio_at_swap by lia.
    pose proof (parent_lt k) as Hpk. specialize (H1 k). specialize (H2 k).
    assert (k = j → (k - 1) / 2 = (j - 1) / 2) as Hkj by (by intros ->).
    remember ((j - 1) / 2) as i eqn:Ei. remember ((k - 1) / 2) as pk eqn:Ek.
    clear Ei Ek. repeat case_decide; subst; lia.
  - intros k Hk Hi Hpk. rewrite swap_slots_length in Hk.
    rewrite !prio_at_swap by lia.
    pose proof (H1 k) as H1k. rewrite Hpk in H1k. specialize (H1 ((j - 1) / 2)).
    pose proof (parent_lt k) as Hik. rewrite Hpk in Hik.
    remember ((j - 1) / 2) as i eqn:Ei.
    pose proof (parent_lt i) as Hpi.
    remember ((i - 1) / 2) as pi eqn:Epi.
    clear Ei Epi Hpk. repeat case_decide; subst; lia.
Qed.

Lemma up_loop_heap fuel b j :
  j ≤ fuel → j < length (handlers b) → up_inv (handlers b) j →
  heap_ordered (handlers (heap.up_loop fuel b j)).
Proof.
  revert b j. induction fuel as [|fuel IH]; intros b j Hf Hj Hinv;
    cbn [heap.up_loop].
  { replace j with 0 in Hinv by lia. by apply up_inv_root. }
  destruct (decide (j = 0)) as [->|Hj0].
  { by apply up_inv_root. }
  pose proof (parent_lt j) as Hpj.
  destruct ((j - 1) / 2 =? j) eqn:Heq; [apply Nat.eqb_eq in Heq; lia|].
  cbn [orb Less LBBalancer_heap]. rewrite less_slots_prio by lia.
  destruct (prio_at (handlers b) j <? _)%Z eqn:Hless; cbn [negb].
  - apply IH; cbn [Swap LBBalancer_heap with_handlers handlers].
    + lia.
    + rewrite swap_slots_length. lia.
    + apply up_inv_swap; [lia|done|]. by apply Z.ltb_lt.
  - apply Z.ltb_ge in Hless. apply heap_ordered_prio. intros k Hk.
    destruct Hinv as [H1 _]. destruct (decide (k = j)) as [->|]; [done|].
    apply H1; lia.
Qed.

(** *** [down] *)

Lemma down_loop_frame fuel b i n :
  n ≤ length (handlers b) →
  wantsHealthCheck (heap.down_loop fuel b i n) = wantsHealthCheck b ∧
  status (heap.down_loop fuel b i n) = status b ∧
  updaters (heap.down_loop fuel b i n) = updaters b ∧
  handlers (heap.down_loop fuel b i n) ≡ₚ handlers b ∧
  (∀ m, n ≤ m → handlers (heap.down_loop fuel b i n) !! m = handlers b !! m).
Proof.
  revert b i. induction fuel as [|fuel IH]; intros b i Hn;
    cbn [heap.down_loop]; [done|].
  destruct (n <=? 2 * i + 1) eqn:Hj1; [done|]. apply Nat.leb_gt in Hj1.
  set (j := if _ && _ then _ else _).
  assert (j = 2 * i + 1 ∨ j = 2 * i + 2 ∧ 2 * i + 2 < n) as Hj.
  { subst j. destruct (2 * i + 1 + 1 <? n) eqn:Hj2; cbn [andb]; [|lia].
    apply Nat.ltb_lt in Hj2. destruct (Less _ _ _); lia. }
  destruct (negb _); [done|].
  specialize (IH (Swap b i j) j).
  cbn [Swap LBBalancer_heap with_handlers handlers wantsHealthCheck status
       updaters] in IH.
  rewrite swap_slots_length in IH. cbn [Swap LBBalancer_heap].
  destruct (IH Hn) as (-> & -> & -> & -> & Hm).
  split_and!; [done..|apply swap_slots_perm|].
  intros m Hnm. rewrite Hm by done. rewrite swap_slots_lookup by lia.
  repeat case_decide; [lia..|done].
Qed.

Lemma down_inv_swap hs i j n :
  n ≤ length hs → j < n → (j - 1) / 2 = i → 0 < j →
  down_inv hs i n →
  (∀ k, 0 < k < n → (k - 1) / 2 = i → (prio_at hs j ≤ prio_at hs k)%Z) →
  (prio_at hs j < prio_at hs i)%Z →
  down_inv (swap_slots hs i j) j n.
Proof.
  intros Hn Hj Hpj Hj0 [H1 H2] Hsib Hlt.
  pose proof (parent_lt j Hj0) as Hij. rewrite Hpj in Hij.
  split.
  - intros k Hk Hpk. rewrite !prio_at_swap by lia.
    destruct (decide (k = i)) as [->|Hki].
    + pose proof (parent_lt i) as Hli. specialize (H2 j).
      remember ((i - 1) / 2) as pi eqn:Epi. clear Epi H1 Hsib.
      repeat case_decide; lia.
    + pose proof (parent_lt k) as Hlk. specialize (H1 k). specialize (Hsib k).
      assert (k = j → (k - 1) / 2 = i) as Hkj by (by intros ->).
      remember ((k - 1) / 2) as pk eqn:Ek.
      clear Ek Hpj H2. repeat case_decide; subst; lia.
  - intros k Hk _ Hpk. rewrite Hpj. rewrite !prio_at_swap by lia.
    pose proof (parent_lt k) as Hlk. specialize (H1 k).
    rewrite Hpk in H1, Hlk. clear Hpk Hpj.
    repeat case_decide; subst; lia.
Qed.

Lemma down_loop_heap fuel b i n :
  n ≤ fuel + i → n ≤ length (handlers b) → down_inv (handlers b) i n →
  ∀ k, 0 < k < n →
    (prio_at (handlers (heap.down_loop fuel b i n)) ((k - 1) / 2)
     ≤ prio_at (handlers (heap.down_loop fuel b i n)) k)%Z.
Proof.
  revert b i. induction fuel as [|fuel IH]; intros b i Hf Hn [H1 H2];
    cbn [heap.down_loop].
  { intros k Hk. apply H1; [done|]. pose proof (parent_lt k). lia. }
  destruct (n <=? 2 * i + 1) eqn:Hj1.
  { apply Nat.leb_le in Hj1. intros k Hk. apply H1; [done|].
    intros Hp. destruct (parent_child k i Hp); lia. }
  apply Nat.leb_gt in Hj1.
  set (j := if _ && _ then _ else _).
  assert (j < n ∧ (j - 1) / 2 = i ∧ 0 < j ∧
          ∀ k, 0 < k < n → (k - 1) / 2 = i →
            (prio_at (handlers b) j ≤ prio_at (handlers b) k)%Z)
    as (Hjn & Hpj & Hj0 & Hsib).
  { subst j. cbn [Less LBBalancer_heap].
    destruct (2 * i + 1 + 1 <? n) eqn:Hj2; cbn [andb].
    - apply Nat.ltb_lt in Hj2. rewrite less_slots_prio by lia.
      destruct (_ <? _)%Z eqn:Hl.
      + apply Z.ltb_lt in Hl. split_and!; [lia| |lia|].
        { replace (2 * i + 1 + 1) with (2 * i + 2) by lia.
          apply child_parent_r. }
        intros k Hk Hp. destruct (parent_child k i Hp) as [->| ->]; [lia| |].
        * lia.
        * by replace (2 * i + 1 + 1) with (2 * i + 2) by lia.
      + apply Z.ltb_ge in Hl. split_and!; [lia|apply child_parent_l|lia|].
        intros k Hk Hp. destruct (parent_child k i Hp) as [->| ->]; [lia| |].
        * done.
        * by replace (2 * i + 2) with (2 * i + 1 + 1) by lia.
    - apply Nat.ltb_ge in Hj2. split_and!; [lia|apply child_parent_l|lia|].
      intros k Hk Hp. destruct (parent_child k i Hp) as [->| ->]; [lia|done|lia]. }
  clearbody j. cbn [Less LBBalancer_heap]. rewrite less_slots_prio by lia.
  destruct (_ <? _)%Z eqn:Hless; cbn [negb].
  - apply IH; cbn [Swap LBBalancer_heap with_handlers handlers].
    + pose proof (parent_lt j Hj0). lia.
    + by rewrite swap_slots_length.
    + apply down_inv_swap; [done..|split; done|done|]. by apply Z.ltb_lt.
  - apply Z.ltb_ge in Hless. intros k Hk.
    destruct (decide ((k - 1) / 2 = i)) as [Hp|Hp]; [|by apply H1].
    rewrite Hp. specialize (Hsib k Hk Hp). lia.
Qed.

(** *** [heap.Push] and [heap.Pop] on the balancer *)

Lemma heap_Push_frame b h :
  wantsHealthCheck (heap.Push b h) = wantsHealthCheck b ∧
  status (heap.Push b h) = status b ∧
  updaters (heap.Push b h) = updaters b ∧
  handlers (heap.Push b h) ≡ₚ h :: handlers b.
Proof.
  unfold heap.Push, heap.up.
  destruct (up_loop_frame (Len (Push b h) - 1) (Push b h) (Len (Push b h) - 1))
    as (-> & -> & -> & ->).
  cbn. split_and!; [done..|]. symmetry. apply Permutation_cons_append.
Qed.

Lemma length_snoc hs h : length (hs ++ [h]) = S (length hs).
Proof. rewrite length_app. cbn. lia. Qed.

Lemma heap_Push_ordered b h :
  heap_ordered (handlers b) → heap_ordered (handlers (heap.Push b h)).
Proof.
  intros Hh. unfold heap.Push, heap.up.
  cbn [Push Len LBBalancer_heap with_handlers handlers].
  rewrite length_snoc.
  apply up_loop_heap; cbn [with_handlers handlers].
  - lia.
  - rewrite length_snoc. lia.
  - rewrite heap_ordered_prio in Hh. split.
    + intros k Hk Hne. rewrite length_snoc in Hk.
      pose proof (parent_lt k). unfold prio_at.
      rewrite !lookup_app_l by lia. apply Hh. lia.
    + intros k Hk _ Hp. rewrite length_snoc in Hk.
      pose proof (parent_lt k). lia.
Qed.

Lemma heap_Pop_spec b :
  0 < Len b →
  ∃ h b', heap.Pop b = Some (h, b') ∧
    handlers b !! 0 = Some h ∧
    wantsHealthCheck b' = wantsHealthCheck b ∧
    status b' = status b ∧
    updaters b' = updaters b ∧
    handlers b ≡ₚ h :: handlers b' ∧
    (heap_ordered (handlers b) → heap_ordered (handlers b')).
Proof.
  intros Hlen. cbn [Len LBBalancer_heap] in Hlen.
  destruct (lookup_lt_is_Some_2 (handlers b) 0 Hlen) as [h Hroot].
  unfold heap.Pop, heap.down. cbn [Len LBBalancer_heap].
  set (n := length (handlers b) - 1).
  set (b1 := Swap b 0 n).
  assert (length (handlers b1) = length (handlers b)) as Hlen1.
  { subst b1. cbn. apply swap_slots_length. }
  destruct (down_loop_frame n b1 0 n) as (Hw & Hs & Hu & Hperm & Hhigh).
  { rewrite Hlen1. lia. }
  set (b2 := heap.down_loop n b1 0 n) in *.
  assert (length (handlers b2) = length (handlers b)) as Hlen2.
  { by rewrite Hperm. }
  assert (handlers b2 !! n = Some h) as Hlast.
  { rewrite Hhigh by done. subst b1. cbn.
    rewrite swap_slots_lookup by lia. repeat case_decide; congruence. }
  cbn [Pop LBBalancer_heap]. rewrite last_lookup, Hlen2.
  replace (pred (length (handlers b))) with n by lia. rewrite Hlast. fold n.
  eexists _, _. split; [done|]. cbn [with_handlers handlers wantsHealthCheck
    status updaters].
  assert (handlers b2 = take n (handlers b2) ++ [h]) as Hsplit.
  { rewrite <-(take_drop n (handlers b2)) at 1. f_equal.
    apply list_eq. intros [|m].
    - by rewrite lookup_drop, Nat.add_0_r.
    - rewrite lookup_drop. cbn. apply lookup_ge_None_2. lia. }
  split_and!; [done|by rewrite Hw|by rewrite Hs|by rewrite Hu| |].
  - rewrite (Permutation_cons_append (take n (handlers b2))), <-Hsplit, Hperm.
    subst b1. cbn.
    by rewrite swap_slots_perm.
  - intros Hh. rewrite heap_ordered_prio in Hh. apply heap_ordered_prio.
    rewrite length_take_le by lia. intros k Hk.
    pose proof (parent_lt k) as Hpk. unfold prio_at.
    rewrite !lookup_take_lt by lia.
    apply (down_loop_heap n b1 0 n); [lia|lia| |done].
    subst b1. cbn. split; [|lia].
    intros m Hm Hpm. rewrite !prio_at_swap by lia.
    pose proof (parent_lt m). repeat case_decide; try lia.
    apply Hh. lia.
Qed.

Lemma heap_ordered_root hs r x :
  heap_ordered hs → hs !! 0 = Some r → x ∈ hs → (priority r ≤ priority x)%Z.
Proof.
  intros Hh Hr [k Hk]%list_elem_of_lookup.
  rewrite <-(prio_at_lookup _ _ _ Hr), <-(prio_at_lookup _ _ _ Hk).
  apply lookup_lt_Some in Hk. clear x Hr.
  rewrite heap_ordered_prio in Hh.
  induction (lt_wf k) as [k _ IH].
  destruct (decide (k = 0)) as [->|Hk0]; [done|].
  pose proof (parent_lt k). etrans; [apply (IH ((k - 1) / 2)); lia|].
  apply Hh. lia.
Qed.

Lemma push_back_frame b popped :
  wantsHealthCheck (push_back b popped) = wantsHealthCheck b ∧
  status (push_back b popped) = status b ∧
  updaters (push_back b popped) = updaters b ∧
  handlers (push_back b popped) ≡ₚ popped ++ handlers b.
Proof.
  unfold push_back. revert b. induction popped as [|h popped IH]; intros b.
  { done. }
  cbn [foldl]. destruct (IH (heap.Push b h)) as (-> & -> & -> & ->).
  destruct (heap_Push_frame b h) as (-> & -> & -> & ->).
  split_and!; [done..|]. cbn. by rewrite Permutation_middle.
Qed.

Lemma push_back_ordered b popped :
  heap_ordered (handlers b) → heap_ordered (handlers (push_back b popped)).
Proof.
  unfold push_back. revert b. induction popped as [|h popped IH]; intros b Hh.
  { done. }
  cbn [foldl]. by apply IH, heap_Push_ordered.
Qed.

(** *** The selection loop *)

Lemma entry_admit_at now h : entry (admit_at now h) = entry h.
Proof. done. Qed.

Lemma priority_admit_at now h : priority (admit_at now h) = priority h.
Proof. done. Qed.


Lemma heap_Pop_inv b h b1 :
  heap.Pop b = Some (h, b1) → 0 < Len b →
  handlers b !! 0 = Some h ∧
  wantsHealthCheck b1 = wantsHealthCheck b ∧
  status b1 = status b ∧
  updaters b1 = updaters b ∧
  handlers b ≡ₚ h :: handlers b1 ∧
  (heap_ordered (handlers b) → heap_ordered (handlers b1)).
Proof.
  intros Hpop Hlen. destruct (heap_Pop_spec b Hlen) as (h' & b' & Hp & Hrest).
  rewrite Hpop in Hp. by simplify_eq.
Qed.

Lemma heap_Pop_length b h b1 :
  heap.Pop b = Some (h, b1) → 0 < Len b → Len b = S (Len b1).
Proof.
  intros Hpop Hlen.
  destruct (heap_Pop_inv _ _ _ Hpop Hlen) as (_ & _ & _ & _ & Hperm & _).
  cbn. by rewrite Hperm.
Qed.

(** The loop completes within [Len b + 1] passes, and what it computes is
    a run of [scan] followed by the reinsertions. *)
Lemma nextServer_loop_scan fuel clock b popped :
  Len b < fuel →
  ∃ b2 popped2 chosen,
    nextServer_loop fuel clock b popped
      = Some (push_back b2 popped2, popped2, chosen) ∧
    scan clock b popped b2 popped2 chosen.
Proof.
  revert b popped. induction fuel as [|fuel IH]; intros b popped Hfuel; [lia|].
  cbn [nextServer_loop].
  destruct (Len b =? 0) eqn:Hlen.
  { apply Nat.eqb_eq in Hlen. eexists _, _, _. split; [done|]. by constructor. }
  apply Nat.eqb_neq in Hlen.
  destruct (heap_Pop_spec b) as (h & b1 & Hpop & _); [lia|].
  rewrite Hpop. fold (eligible b1 (admit_at (clock (length popped)) h)).
  destruct (eligible b1 _) eqn:Hel.
  { eexists _, _, _. split; [done|]. apply scan_break; [lia|done..]. }
  destruct (IH b1 (popped ++ [admit_at (clock (length popped)) h]))
    as (b2 & popped2 & chosen & -> & Hscan).
  { pose proof (heap_Pop_length _ _ _ Hpop). lia. }
  eexists _, _, _. split; [done|]. eapply scan_skip; [lia|done..].
Qed.

(** More passes than [Len b + 1] change nothing. *)
Lemma nextServer_loop_fuel fuel1 fuel2 clock b popped :
  Len b < fuel1 → Len b < fuel2 →
  nextServer_loop fuel1 clock b popped = nextServer_loop fuel2 clock b popped.
Proof.
  revert fuel2 b popped.
  induction fuel1 as [|fuel1 IH]; intros [|fuel2] b popped H1 H2; [lia..|].
  cbn [nextServer_loop]. destruct (Len b =? 0) eqn:Hlen; [done|].
  apply Nat.eqb_neq in Hlen.
  destruct (heap.Pop b) as [[h b1]|] eqn:Hpop; [|done].
  destruct (_ && _); [done|].
  pose proof (heap_Pop_length _ _ _ Hpop). apply IH; lia.
Qed.

Lemma scan_frame clock b popped b2 popped2 chosen :
  scan clock b popped b2 popped2 chosen →
  wantsHealthCheck b2 = wantsHealthCheck b ∧ status b2 = status b ∧
  updaters b2 = updaters b.
Proof.
  induction 1 as [b popped Hlen|b popped h b1 Hlen Hpop Hel
                 |b popped h b1 b2 popped2 chosen Hlen Hpop Hel Hscan IH].
  - done.
  - by destruct (heap_Pop_inv _ _ _ Hpop Hlen) as (_ & ? & ? & ? & _).
  - destruct (heap_Pop_inv _ _ _ Hpop Hlen) as (_ & <- & <- & <- & _).
    done.
Qed.

(** The handlers the loop has popped are handlers of the pool, each
    taken out once and put through its admission check in turn. *)
Lemma scan_popped clock b popped b2 popped2 chosen :
  scan clock b popped b2 popped2 chosen →
  ∃ scanned,
    handlers b ≡ₚ scanned ++ handlers b2 ∧
    popped2 = popped ++ admitted clock (length popped) scanned.
Proof.
  induction 1 as [b popped Hlen|b popped h b1 Hlen Hpop Hel
                 |b popped h b1 b2 popped2 chosen Hlen Hpop Hel Hscan IH].
  - exists []. by rewrite app_nil_r.
  - destruct (heap_Pop_inv _ _ _ Hpop Hlen) as (_ & _ & _ & _ & Hperm & _).
    exists [h]. split; [done|].
    unfold admitted. cbn. by rewrite Nat.add_0_r.
  - destruct (heap_Pop_inv _ _ _ Hpop Hlen) as (_ & _ & _ & _ & Hperm & _).
    destruct IH as (scanned & Hperm1 & ->). exists (h :: scanned).
    split; [by rewrite Hperm, Hperm1|].
    unfold admitted. rewrite imap_cons, Nat.add_0_r, <-app_assoc. cbn.
    do 2 f_equal. apply imap_ext. intros i x _. cbn.
    rewrite length_snoc. do 2 f_equal. lia.
Qed.

Lemma eligible_status b b' h :
  status b' = status b → eligible b' h = eligible b h.
Proof. unfold eligible. by intros ->. Qed.

(** Who the loop passes over and whom it stops at. *)
Lemma scan_outcome clock b popped b2 popped2 chosen :
  scan clock b popped b2 popped2 chosen →
  ∃ skipped,
    popped2 = popped ++ skipped ++ option_list chosen ∧
    Forall (λ h, eligible b h = false) skipped ∧
    match chosen with
    | Some h => eligible b h = true
    | None => handlers b2 = []
    end.
Proof.
  induction 1 as [b popped Hlen|b popped h b1 Hlen Hpop Hel
                 |b popped h b1 b2 popped2 chosen Hlen Hpop Hel Hscan IH].
  - exists []. cbn. rewrite app_nil_r. split_and!; [done..|].
    by apply length_zero_iff_nil.
  - destruct (heap_Pop_inv _ _ _ Hpop Hlen) as (_ & _ & Hst & _).
    exists []. cbn. split_and!; [done..|].
    by rewrite <-(eligible_status _ _ _ Hst).
  - destruct (heap_Pop_inv _ _ _ Hpop Hlen) as (_ & _ & Hst & _).
    destruct IH as (skipped & -> & Hsk & Hch).
    exists (admit_at (clock (length popped)) h :: skipped).
    split_and!.
    + by rewrite <-app_assoc.
    + constructor; [by rewrite <-(eligible_status _ _ _ Hst)|].
      eapply Forall_impl; [done|]. intros x. cbn.
      by rewrite (eligible_status _ _ _ Hst).
    + destruct chosen; [|done]. by rewrite <-(eligible_status _ _ _ Hst).
Qed.

(** From a heap-ordered slice the loop pops by ascending priority, each
    time a handler no other handler still in the pool comes before. *)
Lemma scan_ascending clock b popped b2 popped2 chosen scanned :
  scan clock b popped b2 popped2 chosen →
  popped2 = popped ++ admitted clock (length popped) scanned →
  heap_ordered (handlers b) →
  heap_ordered (handlers b2) ∧
  StronglySorted Z.le (priority <$> scanned) ∧
  Forall (λ x, Forall (λ y, (priority x ≤ priority y)%Z) (handlers b2)) scanned.
Proof.
  intros Hscan. revert scanned.
  induction Hscan as [b popped Hlen|b popped h b1 Hlen Hpop Hel
                 |b popped h b1 b2 popped2 chosen Hlen Hpop Hel Hscan IH];
    intros scanned Heq Hh.
  - assert (scanned = []) as ->.
    { apply (f_equal length) in Heq. unfold admitted in Heq.
      rewrite length_app, length_imap in Heq.
      apply length_zero_iff_nil. lia. }
    split_and!; [done|constructor|constructor].
  - destruct (heap_Pop_inv _ _ _ Hpop Hlen) as (Hroot & _ & _ & _ & Hperm & Hord).
    apply app_inv_head in Heq. unfold admitted in Heq.
    destruct scanned as [|x [|x' scanned]]; [done| |done].
    cbn in Heq. rewrite Nat.add_0_r in Heq.
    assert (priority x = priority h) as Hpx.
    { apply (f_equal (hd_error ∘ fmap priority)) in Heq. cbn in Heq.
      by simplify_eq. }
    split_and!; [by apply Hord|repeat constructor|].
    constructor; [|constructor]. apply Forall_forall. intros y Hy.
    rewrite Hpx. apply (heap_ordered_root (handlers b)); [done..|].
    rewrite Hperm. by right.
  - destruct (heap_Pop_inv _ _ _ Hpop Hlen) as (Hroot & _ & _ & _ & Hperm & Hord).
    destruct (scan_popped _ _ _ _ _ _ Hscan) as (scanned1 & Hperm1 & Heq1).
    assert (popped2 = popped ++ admitted clock (length popped) (h :: scanned1))
      as Heq2.
    { rewrite Heq1. unfold admitted. rewrite imap_cons, Nat.add_0_r, <-app_assoc.
      cbn. do 2 f_equal. apply imap_ext. intros i x _. cbn.
      rewrite length_snoc. do 2 f_equal. lia. }
    destruct (IH scanned1 Heq1 (Hord Hh)) as (Hh2 & Hsorted & Hle).
    assert (priority <$> scanned = priority <$> (h :: scanned1)) as Hmp.
    { rewrite Heq2 in Heq. apply app_inv_head in Heq.
      apply (f_equal (fmap priority)) in Heq. unfold admitted in Heq.
      rewrite !fmap_imap in Heq.
      rewrite <-(imap_const priority scanned), <-(imap_const priority (h :: scanned1)).
      etrans; [|etrans; [symmetry; exact Heq|]];
        apply imap_ext; intros; done. }
    assert (∀ y, y ∈ handlers b1 → (priority h ≤ priority y)%Z) as Hmin.
    { intros y Hy. apply (heap_ordered_root (handlers b)); [done..|].
      rewrite Hperm. by right. }
    split_and!; [done| |].
    + rewrite Hmp. cbn. constructor; [done|].
      apply Forall_forall. intros p [y [-> Hy]]%list_elem_of_fmap.
      apply Hmin. rewrite Hperm1. apply elem_of_app. by left.
    + assert (Forall (λ p, Forall (λ y, (p ≤ priority y)%Z) (handlers b2))
                (priority <$> scanned)) as Hall; last first.
      { by rewrite Forall_fmap in Hall. }
      rewrite Hmp. cbn. constructor.
      * apply Forall_forall. intros y Hy. apply Hmin. rewrite Hperm1.
        apply elem_of_app. by right.
      * by rewrite Forall_fmap.
Qed.

Lemma entry_admitted clock k scanned :
  entry <$> admitted clock k scanned = entry <$> scanned.
Proof.
  unfold admitted. rewrite fmap_imap, <-(imap_const entry scanned).
  apply imap_ext. intros i x _. done.
Qed.

Lemma priority_admitted clock k scanned :
  priority <$> admitted clock k scanned = priority <$> scanned.
Proof.
  unfold admitted. rewrite fmap_imap, <-(imap_const priority scanned).
  apply imap_ext. intros i x _. done.
Qed.

(** One round of the loop, from an empty [poppedHandlers]. *)
Lemma nextServer_loop_spec b clock :
  ∃ b' scanned rest chosen,
    nextServer_loop (S (Len b)) clock b [] = Some (b', admitted clock 0 scanned, chosen) ∧
    handlers b ≡ₚ scanned ++ rest ∧
    handlers b' ≡ₚ admitted clock 0 scanned ++ rest ∧
    (wantsHealthCheck b' = wantsHealthCheck b ∧ status b' = status b ∧
     updaters b' = updaters b) ∧
    (∃ skipped,
       admitted clock 0 scanned = skipped ++ option_list chosen ∧
       Forall (λ h, eligible b h = false) skipped ∧
       match chosen with
       | Some h => eligible b h = true
       | None => rest = []
       end) ∧
    (heap_ordered (handlers b) →
       heap_ordered (handlers b') ∧
       StronglySorted Z.le (priority <$> scanned) ∧
       Forall (λ x, Forall (λ y, (priority x ≤ priority y)%Z) rest) scanned).
Proof.
  destruct (nextServer_loop_scan (S (Len b)) clock b [])
    as (b2 & popped2 & chosen & Hloop & Hscan); [lia|].
  destruct (scan_popped _ _ _ _ _ _ Hscan) as (scanned & Hperm & Hpopped).
  cbn in Hpopped. subst popped2.
  destruct (scan_frame _ _ _ _ _ _ Hscan) as (Hw & Hs & Hu).
  destruct (push_back_frame b2 (admitted clock 0 scanned)) as (Hw' & Hs' & Hu' & Hperm').
  exists (push_back b2 (admitted clock 0 scanned)), scanned, (handlers b2), chosen.
  split_and!; [done..|congruence|congruence|congruence| |].
  - destruct (scan_outcome _ _ _ _ _ _ Hscan) as (skipped & Heq & Hsk & Hch).
    by exists skipped.
  - intros Hh.
    destruct (scan_ascending _ _ _ _ _ _ scanned Hscan eq_refl Hh) as (Hh2 & Hso & Hle).
    split_and!; [|done..]. by apply push_back_ordered.
Qed.

(** [nextServer] and [ServeHTTP] complete, and leave in the pool the
    entries they found there. *)
Lemma nextServer_spec b clock :
  ∃ b' res,
    nextServer b clock = Some (b', res) ∧
    (wantsHealthCheck b' = wantsHealthCheck b ∧ status b' = status b ∧
     updaters b' = updaters b) ∧
    entry <$> handlers b' ≡ₚ entry <$> handlers b ∧
    (heap_ordered (handlers b) → heap_ordered (handlers b')) ∧
    match res with
    | inl h => h ∈ handlers b' ∧ eligible b h = true
    | inr err => err = errNoAvailableServer
    end.
Proof.
  unfold nextServer. destruct (_ || _).
  { by eexists _, _. }
  destruct (nextServer_loop_spec b clock)
    as (b' & scanned & rest & chosen & -> & Hperm & Hperm' & Hfr & Hout & Hord).
  assert (entry <$> handlers b' ≡ₚ entry <$> handlers b) as Hentry.
  { by rewrite Hperm', Hperm, !fmap_app, entry_admitted. }
  destruct Hout as (skipped & Heq & _ & Hch).
  destruct chosen as [h|]; eexists _, _;
    (do 3 (split; [done|]); split; [by intros [? _]%Hord|]).
  - split; [|done]. rewrite Hperm', Heq. cbn.
    apply elem_of_app. left. apply elem_of_app. right. by left.
  - done.
Qed.

Lemma ServeHTTP_spec b clock :
  ∃ b' r,
    ServeHTTP b clock = Some (b', r) ∧
    (wantsHealthCheck b' = wantsHealthCheck b ∧ status b' = status b ∧
     updaters b' = updaters b) ∧
    entry <$> handlers b' ≡ₚ entry <$> handlers b ∧
    (heap_ordered (handlers b) → heap_ordered (handlers b')) ∧
    match r with
    | served_by h => h ∈ handlers b' ∧ eligible b h = true
    | http_Error msg code =>
        msg = errNoAvailableServer ∧ code = StatusServiceUnavailable
    end.
Proof.
  unfold ServeHTTP. destruct (_ || _).
  { by eexists _, _. }
  destruct (nextServer_spec b clock) as (b' & res & -> & Hfr & Hperm & Hord & Hres).
  destruct res as [h|err].
  - by eexists _, _.
  - subst err. rewrite bool_decide_eq_true_2 by done. by eexists _, _.
Qed.

(** *** [Add], [SetStatus], [RegisterStatusUpdater] *)

Lemma Add_dropped b n handler bu a p prio :
  (default 1 a ≤ 0)%Z → Add b n handler bu a p prio = b.
Proof. intros Ha. unfold Add. by rewrite (proj2 (Z.leb_le _ _) Ha). Qed.

Lemma Add_created b n handler bu a p prio :
  (0 < default 1 a)%Z →
  ∃ h,
    handlers (Add b n handler bu a p prio) ≡ₚ h :: handlers b ∧
    (wantsHealthCheck (Add b n handler bu a p prio) = wantsHealthCheck b ∧
     status (Add b n handler bu a p prio) = {[n]} ∪ status b ∧
     updaters (Add b n handler bu a p prio) = updaters b) ∧
    (heap_ordered (handlers b) →
     heap_ordered (handlers (Add b n handler bu a p prio))) ∧
    Handler h = handler ∧ name h = n ∧
    burst h = (if (default 1 bu <=? 1) then 1 else default 1 bu)%Z ∧
    average h = default 1%Z a ∧
    period h = wrap64 (Millisecond *
                 (if (default 1 p <=? 0) then 1 else default 1 p))%Z ∧
    priority h = (if (default 1 prio <=? 0) then 1 else default 1 prio)%Z ∧
    bucket h = NewLimiterEvery (period h ÷ average h)%Z (burst h) ∧
    canAllow h = true.
Proof.
  intros Ha. unfold Add. rewrite (proj2 (Z.leb_gt _ _) Ha).
  set (h := mkNamedHandler _ _ _ _ _ _ _ _).
  destruct (heap_Push_frame b h) as (Hw & Hs & Hu & Hperm).
  exists h. cbn [with_status handlers wantsHealthCheck status updaters].
  rewrite Hs. split_and!; try done. apply heap_Push_ordered.
Qed.

Lemma SetStatus_frame b n up :
  wantsHealthCheck (SetStatus b n up).1 = wantsHealthCheck b ∧
  handlers (SetStatus b n up).1 = handlers b ∧
  updaters (SetStatus b n up).1 = updaters b ∧
  status (SetStatus b n up).1
    = (if up then {[n]} ∪ status b else status b ∖ {[n]}).
Proof. unfold SetStatus. destruct up; by destruct (Bool.eqb _ _). Qed.

Lemma RegisterStatusUpdater_frame b fn :
  wantsHealthCheck (RegisterStatusUpdater b fn).1 = wantsHealthCheck b ∧
  handlers (RegisterStatusUpdater b fn).1 = handlers b ∧
  status (RegisterStatusUpdater b fn).1 = status b.
Proof. unfold RegisterStatusUpdater. by destruct (negb _). Qed.

(** *** What every call preserves *)

Lemma step_ordered b c :
  heap_ordered (handlers b) → heap_ordered (handlers (step b c)).
Proof.
  intros Hh. destruct c as [n h bu a p prio|n up|fn|clock]; cbn [step].
  - destruct (decide (default 1 a ≤ 0)%Z) as [Ha|Ha].
    + by rewrite Add_dropped.
    + destruct (Add_created b n h bu a p prio) as (? & _ & _ & Hord & _); [lia|].
      by apply Hord.
  - by destruct (SetStatus_frame b n up) as (_ & -> & _).
  - by destruct (RegisterStatusUpdater_frame b fn) as (_ & -> & _).
  - destruct (ServeHTTP_spec b clock) as (b' & r & -> & _ & _ & Hord & _).
    by apply Hord.
Qed.

Lemma step_wantsHealthCheck b c :
  wantsHealthCheck (step b c) = wantsHealthCheck b.
Proof.
  destruct c as [n h bu a p prio|n up|fn|clock]; cbn [step].
  - destruct (decide (default 1 a ≤ 0)%Z) as [Ha|Ha].
    + by rewrite Add_dropped.
    + by destruct (Add_created b n h bu a p prio) as (? & _ & (-> & _) & _); [lia|].
  - by destruct (SetStatus_frame b n up) as (-> & _).
  - by destruct (RegisterStatusUpdater_frame b fn) as (-> & _).
  - by destruct (ServeHTTP_spec b clock) as (b' & r & -> & (-> & _) & _).
Qed.

Lemma run_ordered b calls :
  heap_ordered (handlers b) → heap_ordered (handlers (run b calls)).
Proof.
  unfold run. revert b. induction calls as [|c calls IH]; intros b Hh; [done|].
  cbn [foldl]. by apply IH, step_ordered.
Qed.


Lemma reachable_ordered b : reachable b → heap_ordered (handlers b).
Proof.
  intros (w & calls & ->). apply run_ordered. intros k x y _ Hy. done.
Qed.

Lemma pool_names_entry b b' :
  entry <$> handlers b' ≡ₚ entry <$> handlers b → pool_names b' ≡ₚ pool_names b.
Proof.
  intros Hperm. unfold pool_names.
  assert (∀ hs, name <$> hs = (λ e, e.1.1.1.1.2) <$> (entry <$> hs)) as Hn.
  { intros hs. rewrite <-list_fmap_compose. done. }
  by rewrite !Hn, Hperm.
Qed.

(** The names in the pool after a call: those before, and the name of
    the entry the call has created. *)
Lemma step_pool_names b c n :
  n ∈ pool_names (step b c) ↔ n ∈ pool_names b ∨ creates n c = true.
Proof.
  destruct c as [n' h bu a p prio|n' up|fn|clock]; cbn [step creates].
  - destruct (decide (default 1 a ≤ 0)%Z) as [Ha|Ha].
    + rewrite Add_dropped by done.
      rewrite (proj2 (Z.ltb_ge _ _) Ha), andb_false_r. intuition congruence.
    + destruct (Add_created b n' h bu a p prio)
        as (e & Hperm & _ & _ & _ & Hname & _); [lia|].
      unfold pool_names. rewrite Hperm, fmap_cons, Hname, elem_of_cons.
      rewrite (proj2 (Z.ltb_lt _ _)), andb_true_r by lia.
      rewrite bool_decide_eq_true. intuition congruence.
  - unfold pool_names. destruct (SetStatus_frame b n' up) as (_ & -> & _).
    intuition congruence.
  - unfold pool_names.
    destruct (RegisterStatusUpdater_frame b fn) as (_ & -> & _). intuition congruence.
  - destruct (ServeHTTP_spec b clock) as (b' & r & -> & _ & Hperm & _).
    rewrite (pool_names_entry _ _ Hperm). intuition congruence.
Qed.

Lemma step_status b c :
  status (step b c) =
    match c with
    | call_Add n _ _ a _ _ =>
        if (0 <? default 1 a)%Z then {[n]} ∪ status b else status b
    | call_SetStatus n up =>
        if up then {[n]} ∪ status b else status b ∖ {[n]}
    | _ => status b
    end.
Proof.
  destruct c as [n h bu a p prio|n up|fn|clock]; cbn [step].
  - destruct (0 <? default 1 a)%Z eqn:Ha.
    + apply Z.ltb_lt in Ha.
      by destruct (Add_created b n h bu a p prio Ha) as (? & _ & (_ & -> & _) & _).
    + apply Z.ltb_ge in Ha. by rewrite Add_dropped.
  - by destruct (SetStatus_frame b n up) as (_ & _ & _ & ->).
  - by destruct (RegisterStatusUpdater_frame b fn) as (_ & _ & ->).
  - by destruct (ServeHTTP_spec b clock) as (b' & r & -> & (_ & -> & _) & _).
Qed.

Lemma run_pool_names b calls n :
  n ∈ pool_names (run b calls) →
  n ∈ pool_names b ∨ Exists (λ c, creates n c = true) calls.
Proof.
  unfold run. revert b. induction calls as [|c calls IH]; intros b; cbn [foldl].
  { by left. }
  intros [Hn|Hn]%IH.
  - apply step_pool_names in Hn as [Hn|Hn]; [by left|right; by left].
  - right. by right.
Qed.

Lemma healthy_in_pool_run b calls :
  (∀ n, n ∈ status b → n ∈ pool_names b) →
  marks_known_children b calls →
  ∀ n, n ∈ status (run b calls) → n ∈ pool_names (run b calls).
Proof.
  unfold run. revert b.
  induction calls as [|c calls IH]; intros b Hinv Hcalls; cbn [foldl]; [done|].
  destruct Hcalls as [Hc Hcalls]. apply IH; [|done].
  intros n. rewrite step_status, step_pool_names.
  destruct c as [n' h bu a p prio|n' [|]|fn|clock]; cbn [creates].
  - destruct (0 <? default 1 a)%Z.
    + rewrite elem_of_union, elem_of_singleton, andb_true_r, bool_decide_eq_true.
      intros [->|Hn]; [by right|left; by apply Hinv].
    + intros Hn. left. by apply Hinv.
  - rewrite elem_of_union, elem_of_singleton.
    intros [->|Hn]; left; [done|by apply Hinv].
  - rewrite elem_of_difference. intros [Hn _]. left. by apply Hinv.
  - intros Hn. left. by apply Hinv.
  - intros Hn. left. by apply Hinv.
Qed.
End pool.

(** ** The claims that hold for any limiter *)

Section claims.
Context {Handler_t Updater Limiter : Type} `{!rate_Limiter Limiter}.
Abbreviation LB' := (@LBBalancer Handler_t Updater Limiter).
Implicit Types (b : LB') (clock : nat → Time).

(** C2, as amended.  [SetStatus] stores whatever name it is given, so the
    healthy set stays within the names of the pool in the histories where
    [SetStatus] marks up only children that are entries of the pool:
    after any such sequence of [Add], [SetStatus],
    [RegisterStatusUpdater] and [ServeHTTP] calls on a new balancer, every
    name in [status] is the name of an entry of [handlers]. *)
Theorem healthy_names_in_pool (wantHealthCheck : bool) (calls : list Call) :
  marks_known_children (New wantHealthCheck : LB') calls →
  ∀ n, n ∈ status (run (New wantHealthCheck : LB') calls) →
    ∃ h, h ∈ handlers (run (New wantHealthCheck : LB') calls) ∧ name h = n.
Proof.
  intros Hcalls n Hn.
  apply (healthy_in_pool_run _ calls) in Hn; [|by intros ? ?%elem_of_empty|done].
  apply list_elem_of_fmap in Hn as (h & -> & Hh). by exists h.
Qed.

(** C3.  Every call of [ServeHTTP] completes, whether it is served or
    answered with [errNoAvailableServer], and leaves the pool as large as
    it was and with the same entries: the handlers it has popped, the
    chosen one among them, are back in [handlers] and differ from what
    they were by their admission check only. *)
Theorem ServeHTTP_restores_pool b clock :
  ∃ b' r,
    ServeHTTP b clock = Some (b', r) ∧
    length (handlers b') = length (handlers b) ∧
    entry <$> handlers b' ≡ₚ entry <$> handlers b ∧
    match r with
    | served_by h => h ∈ handlers b'
    | http_Error msg code =>
        msg = errNoAvailableServer ∧ code = StatusServiceUnavailable
    end.
Proof.
  destruct (ServeHTTP_spec b clock) as (b' & r & Hs & _ & Hperm & _ & Hr).
  exists b', r. split_and!; [done| |done|].
  - apply Permutation_length in Hperm. by rewrite !length_fmap in Hperm.
  - destruct r; [done|]. by destruct Hr.
Qed.


(** C5.  From a state the balancer can be in, the loop of [nextServer]
    comes to an end within the [Len b + 1] passes it is given.  The
    handlers it evaluates are distinct entries of the pool, no more of
    them than the pool holds, taken by ascending priority, each one a
    minimum of what was still in the pool.  It ends on the first eligible
    handler, or with the pool drained and no handler chosen. *)
Theorem selection_loop_bounded_ascending b clock :
  reachable b →
  ∃ b' scanned rest chosen,
    nextServer_loop (S (Len b)) clock b []
      = Some (b', admitted clock 0 scanned, chosen) ∧
    handlers b ≡ₚ scanned ++ rest ∧
    length (admitted clock 0 scanned) ≤ Len b ∧
    StronglySorted Z.le (priority <$> admitted clock 0 scanned) ∧
    Forall (λ x, Forall (λ y, (priority x ≤ priority y)%Z) rest) scanned ∧
    ∃ skipped,
      admitted clock 0 scanned = skipped ++ option_list chosen ∧
      Forall (λ h, eligible b h = false) skipped ∧
      match chosen with
      | Some h => eligible b h = true
      | None => rest = [] ∧ length (admitted clock 0 scanned) = Len b
      end.
Proof.
  intros Hreach%reachable_ordered.
  destruct (nextServer_loop_spec b clock)
    as (b' & scanned & rest & chosen & Hloop & Hperm & Hperm' & _ & Hout & Hord).
  destruct (Hord Hreach) as (_ & Hsorted & Hmin).
  assert (length (admitted clock 0 scanned) = length scanned) as Hlen.
  { unfold admitted. by rewrite length_imap. }
  exists b', scanned, rest, chosen. split_and!; [done..| | |done|].
  - cbn. rewrite Hlen, Hperm, length_app. lia.
  - by rewrite priority_admitted.
  - destruct Hout as (skipped & Heq & Hsk & Hch). exists skipped.
    split_and!; [done..|]. destruct chosen; [done|]. subst rest.
    split; [done|]. cbn. by rewrite Hlen, Hperm, app_nil_r.
Qed.

(** C6.  [Add] with an average that is zero or negative returns with the
    balancer as it was: no entry in the pool, nothing in [status], and
    there is no error to report.  If the name was not in the pool, no
    later [ServeHTTP] is served by a handler of that name, as long as no
    other [Add] creates one. *)
Theorem Add_nonpositive_average_dropped b n handler bu (a : Z) p prio :
  (a ≤ 0)%Z →
  Add b n handler bu (Some a) p prio = b ∧
  (n ∉ pool_names b →
   ∀ calls clock b' h,
     Forall (λ c, creates n c = false) calls →
     ServeHTTP (run (Add b n handler bu (Some a) p prio) calls) clock
       = Some (b', served_by h) →
     name h ≠ n).
Proof.
  intros Ha. rewrite Add_dropped by done. split; [done|].
  intros Hn calls clock b' h Hcalls Hserve Hname.
  destruct (ServeHTTP_spec (run b calls) clock)
    as (b2 & r & Hs & _ & Hperm & _ & Hr).
  rewrite Hserve in Hs. simplify_eq. destruct Hr as [Hh _].
  assert (name h ∈ pool_names (run b calls)) as Hin.
  { rewrite <-(pool_names_entry _ _ Hperm). unfold pool_names.
    apply list_elem_of_fmap. by exists h. }
  apply run_pool_names in Hin as [Hin|Hin]; [done|].
  apply Exists_exists in Hin as (c & Hc & Hcr).
  rewrite Forall_forall in Hcalls. specialize (Hcalls c Hc). congruence.
Qed.

Lemma wrap64_small z : (- 2 ^ 63 ≤ z < 2 ^ 63)%Z → wrap64 z = z.
Proof. intros Hz. unfold wrap64. rewrite Z.mod_small; lia. Qed.

(** C7, as amended.  The entry that [Add] creates holds burst 1 for a
    burst of 1 or less, priority 1 for a priority of 0 or less and a
    period of one millisecond for a period of 0 or less; a larger burst
    or priority is stored as given, and so is a period of up to
    9223372036854 ms, as that many milliseconds.  (A longer period does
    not fit the 64-bit count of nanoseconds.)  The bucket is made with
    that burst and refills at [average] tokens per period. *)
Theorem Add_sanitizes b n handler bu a p prio :
  (0 < default 1 a)%Z →
  ∃ h,
    handlers (Add b n handler bu a p prio) ≡ₚ h :: handlers b ∧
    name h = n ∧ Handler h = handler ∧ average h = default 1%Z a ∧
    ((default 1 bu ≤ 1)%Z → burst h = 1%Z) ∧
    ((1 < default 1 bu)%Z → burst h = default 1%Z bu) ∧
    ((default 1 prio ≤ 0)%Z → priority h = 1%Z) ∧
    ((0 < default 1 prio)%Z → priority h = default 1%Z prio) ∧
    ((default 1 p ≤ 0)%Z → period h = Millisecond) ∧
    ((0 < default 1 p ≤ 9223372036854)%Z →
       period h = (default 1 p * Millisecond)%Z) ∧
    bucket h = NewLimiterEvery (period h ÷ average h)%Z (burst h).
Proof.
  intros Ha.
  destruct (Add_created b n handler bu a p prio Ha)
    as (h & Hperm & _ & _ & HH & Hn & Hbu & Hav & Hp & Hprio & Hb & _).
  exists h. split_and!; try done.
  - intros Hle. rewrite Hbu. by rewrite (proj2 (Z.leb_le _ _) Hle).
  - intros Hlt. rewrite Hbu. by rewrite (proj2 (Z.leb_gt _ _) Hlt).
  - intros Hle. rewrite Hprio. by rewrite (proj2 (Z.leb_le _ _) Hle).
  - intros Hlt. rewrite Hprio. by rewrite (proj2 (Z.leb_gt _ _) Hlt).
  - intros Hle. rewrite Hp. by rewrite (proj2 (Z.leb_le _ _) Hle).
  - intros [Hlt Hmax]. rewrite Hp, (proj2 (Z.leb_gt _ _) Hlt).
    rewrite wrap64_small; unfold Millisecond; lia.
Qed.

Lemma with_status_same b : with_status b (status b) = b.
Proof. by destruct b. Qed.

Lemma mark_up_twice (n : string) (st : gset string) :
  {[n]} ∪ ({[n]} ∪ st) = {[n]} ∪ st.
Proof. by rewrite (assoc_L (∪)), (idemp_L (∪)). Qed.

Lemma mark_down_twice (n : string) (st : gset string) :
  st ∖ {[n]} ∖ {[n]} = st ∖ {[n]}.
Proof. by rewrite difference_difference_l_L, (idemp_L (∪)). Qed.

(** C8.  Of two calls [SetStatus(name, up)] in a row the second calls no
    updater and changes nothing.  The first calls the updaters when the
    balancer goes between down ([status] empty) and up, each of them once
    and in the order of registration, and calls none when it does not: so
    the two calls together make at most one round of calls, in which no
    updater is called twice. *)
Theorem SetStatus_twice_notifies_once b n up :
  SetStatus (SetStatus b n up).1 n up = ((SetStatus b n up).1, []) ∧
  (SetStatus b n up).2 =
    (if Bool.eqb (0 <? size (status b)) (0 <? size (status (SetStatus b n up).1))
     then []
     else (λ fn, (fn, 0 <? size (status (SetStatus b n up).1))) <$> updaters b) ∧
  length ((SetStatus b n up).2 ++ (SetStatus (SetStatus b n up).1 n up).2)
    ≤ length (updaters b).
Proof.
  assert ((SetStatus b n up).2 =
    (if Bool.eqb (0 <? size (status b)) (0 <? size (status (SetStatus b n up).1))
     then []
     else (λ fn, (fn, 0 <? size (status (SetStatus b n up).1))) <$> updaters b)
    ∧ SetStatus (SetStatus b n up).1 n up = ((SetStatus b n up).1, []))
    as [Hfirst Hsecond]; last first.
  { split_and!; [done..|]. rewrite Hsecond, app_nil_r, Hfirst.
    destruct (Bool.eqb _ _); cbn; [lia|]. by rewrite length_fmap. }
  apply and_comm. split.
  - destruct (SetStatus_frame b n up) as (_ & _ & _ & Hst).
    set (b1 := (SetStatus b n up).1) in *. unfold SetStatus at 1.
    assert ((if up then with_status b1 ({[n]} ∪ status b1)
             else with_status b1 (status b1 ∖ {[n]})) = b1) as ->.
    { transitivity (with_status b1 (status b1)); [|apply with_status_same].
      destruct up; f_equal; rewrite Hst.
      - apply mark_up_twice.
      - apply mark_down_twice. }
    by rewrite Bool.eqb_reflx.
  - unfold SetStatus. destruct up; cbn [with_status status updaters];
      destruct (Bool.eqb _ _) eqn:E; cbn [fst snd with_status status];
      by rewrite E.
Qed.


End claims.

(** ** Further properties of lb.go *)

Section more.
Context {Handler_t Updater Limiter : Type} `{!rate_Limiter Limiter}.
Abbreviation LBm := (@LBBalancer Handler_t Updater Limiter).
Abbreviation NHm := (@namedHandler Handler_t Limiter).
Implicit Types (b : LBm) (clock : nat → Time) (h x : NHm).

(** The two ways of [ServeHTTP]: the test on entry, or a round of the
    loop. *)
Lemma ServeHTTP_cases b clock :
  ((handlers b = [] ∨ status b = ∅) ∧
   ServeHTTP b clock
     = Some (b, http_Error errNoAvailableServer StatusServiceUnavailable)) ∨
  (handlers b ≠ [] ∧ status b ≠ ∅ ∧
   ∃ b' scanned rest chosen,
     ServeHTTP b clock
       = Some (b', match chosen with
                   | Some h => served_by h
                   | None => http_Error errNoAvailableServer StatusServiceUnavailable
                   end) ∧
     handlers b ≡ₚ scanned ++ rest ∧
     handlers b' ≡ₚ admitted clock 0 scanned ++ rest ∧
     (∃ skipped,
        admitted clock 0 scanned = skipped ++ option_list chosen ∧
        Forall (λ h, eligible b h = false) skipped ∧
        match chosen with
        | Some h => eligible b h = true
        | None => rest = []
        end) ∧
     (heap_ordered (handlers b) →
        StronglySorted Z.le (priority <$> scanned) ∧
        Forall (λ x, Forall (λ y, (priority x ≤ priority y)%Z) rest) scanned)).
Proof.
  unfold ServeHTTP, nextServer.
  destruct (length (handlers b) =? 0) eqn:Hlen; cbn [orb].
  { left. apply Nat.eqb_eq, length_zero_iff_nil in Hlen. by split; [left|]. }
  destruct (size (status b) =? 0) eqn:Hsize.
  { left. apply Nat.eqb_eq, size_empty_iff in Hsize.
    split; [right; by apply leibniz_equiv|done]. }
  right. apply Nat.eqb_neq in Hlen, Hsize.
  split; [intros Hnil; by rewrite Hnil in Hlen|].
  split; [intros Hst; by rewrite Hst, size_empty in Hsize|].
  destruct (nextServer_loop_spec b clock)
    as (b' & scanned & rest & chosen & -> & Hperm & Hperm' & _ & Hout & Hord).
  exists b', scanned, rest, chosen. split_and!; [|done..|].
  - destruct chosen; [done|]. by rewrite bool_decide_eq_true_2.
  - intros Hh. by destruct (Hord Hh) as (_ & ? & ?).
Qed.

(** X1.  The slice [b.handlers] of a balancer made by [New] and used
    through [Add], [SetStatus], [RegisterStatusUpdater] and [ServeHTTP] is
    a heap at all times: no handler has a smaller priority value than the
    one in its parent slot. *)
Theorem pool_stays_heap_ordered (wantHealthCheck : bool) (calls : list Call) :
  heap_ordered (handlers (run (New wantHealthCheck : LBm) calls)).
Proof. apply reachable_ordered. by exists wantHealthCheck, calls. Qed.

(** X2.  [heap.Pop] on the balancer fails on the empty pool only.  On any
    other it takes out one handler and leaves the rest of the pool, the
    health state and the updaters as they were; from a heap it takes a
    handler of the least priority value and leaves a heap. *)
Theorem heap_Pop_takes_minimum b :
  match heap.Pop b with
  | None => handlers b = []
  | Some (h, b') =>
      handlers b ≡ₚ h :: handlers b' ∧
      wantsHealthCheck b' = wantsHealthCheck b ∧ status b' = status b ∧
      updaters b' = updaters b ∧
      (heap_ordered (handlers b) →
         heap_ordered (handlers b') ∧
         ∀ x, x ∈ handlers b → (priority h ≤ priority x)%Z)
  end.
Proof.
  destruct (decide (0 < Len b)) as [Hlen|Hlen].
  - destruct (heap_Pop_spec b Hlen)
      as (h & b' & -> & Hroot & Hw & Hs & Hu & Hperm & Hord).
    split_and!; [done..|]. intros Hh. split; [by apply Hord|].
    intros x Hx. by apply (heap_ordered_root (handlers b)).
  - destruct b as [w [|h hs] st us]; [done|]. cbn in Hlen. lia.
Qed.


(** X4.  The handler that [ServeHTTP] hands the request to is up and has
    just been admitted by its bucket, and it is the first such in the
    order of priorities: every entry of the pool with a smaller priority
    value has been checked earlier in the same call and was down or
    refused. *)
Theorem served_first_in_priority (wantHealthCheck : bool) (calls : list Call)
    clock b' h :
  ServeHTTP (run (New wantHealthCheck : LBm) calls) clock = Some (b', served_by h) →
  name h ∈ status (run (New wantHealthCheck : LBm) calls) ∧
  canAllow h = true ∧
  ∀ x, x ∈ handlers (run (New wantHealthCheck : LBm) calls) →
    (priority x < priority h)%Z →
    ∃ k, k < Len (run (New wantHealthCheck : LBm) calls) ∧
         eligible (run (New wantHealthCheck : LBm) calls)
           (admit_at (clock k) x) = false.
Proof.
  set (b := run (New wantHealthCheck) calls). intros Hserved.
  destruct (ServeHTTP_cases b clock) as [[_ Heq]|(_ & _ & Hloop)].
  { rewrite Hserved in Heq. done. }
  destruct Hloop as (b2 & scanned & rest & chosen & Heq & Hperm & _ & Hout & Hord).
  rewrite Hserved in Heq. destruct chosen as [h'|]; simplify_eq.
  destruct Hout as (skipped & Hadm & Hskipped & Hel).
  pose proof Hel as Hel'. unfold eligible in Hel'.
  apply andb_true_iff in Hel' as [Hup%bool_decide_eq_true Hok].
  split_and!; [done..|]. intros x Hx Hlt.
  destruct (Hord (reachable_ordered b (ex_intro _ _ (ex_intro _ _ eq_refl))))
    as (_ & Hmin).
  assert (length (admitted clock 0 scanned) = length scanned) as Hlen.
  { unfold admitted. by rewrite length_imap. }
  assert (∃ y, scanned !! length skipped = Some y ∧ priority y = priority h')
    as (y & Hy & Hpy).
  { destruct (lookup_lt_is_Some_2 scanned (length skipped)) as [y Hy].
    { rewrite <-Hlen, Hadm, length_app. cbn. lia. }
    exists y. split; [done|].
    assert (admitted clock 0 scanned !! length skipped = Some h') as Hh.
    { rewrite Hadm. cbn. by rewrite list_lookup_middle. }
    unfold admitted in Hh. rewrite list_lookup_imap, Hy in Hh. cbn in Hh.
    by simplify_eq. }
  rewrite Hperm in Hx. apply elem_of_app in Hx as [Hx|Hx].
  - apply list_elem_of_lookup in Hx as [k Hk]. exists k. split.
    { apply lookup_lt_Some in Hk. cbn. rewrite Hperm, length_app. lia. }
    assert (admitted clock 0 scanned !! k = Some (admit_at (clock k) x)) as Hk'.
    { unfold admitted. by rewrite list_lookup_imap, Hk. }
    rewrite Hadm in Hk'. cbn in Hk'.
    apply lookup_app_Some in Hk' as [Hk'|[Hge Hk']].
    + rewrite Forall_forall in Hskipped. apply Hskipped.
      by apply list_elem_of_lookup_2 in Hk'.
    + apply list_lookup_singleton_Some in Hk' as [Hk0 Hk'].
      apply (f_equal priority) in Hk'. cbn in Hk'. lia.
  - rewrite Forall_forall in Hmin.
    specialize (Hmin y (list_elem_of_lookup_2 _ _ _ Hy)).
    rewrite Forall_forall in Hmin. specialize (Hmin x Hx). lia.
Qed.


Lemma some_eligible_served b clock h :
  h ∈ handlers b →
  name h ∈ status b →
  (∀ now, (Allow now (bucket h)).1 = true) →
  ∃ b' h', ServeHTTP b clock = Some (b', served_by h').
Proof.
  intros Hh Hup Hadmits.
  destruct (ServeHTTP_cases b clock) as [[[Hnil|Hst] _]|(_ & _ & Hloop)].
  { rewrite Hnil in Hh. by apply elem_of_nil in Hh. }
  { rewrite Hst in Hup. by apply elem_of_empty in Hup. }
  destruct Hloop as (b2 & scanned & rest & chosen & Heq & Hperm & _ & Hout & _).
  destruct chosen as [h'|]; [by exists b2, h'|]. exfalso.
  destruct Hout as (skipped & Hadm & Hskipped & ->).
  rewrite app_nil_r in Hperm. rewrite Hperm in Hh.
  apply list_elem_of_lookup in Hh as [k Hk].
  assert (admitted clock 0 scanned !! k = Some (admit_at (clock k) h)) as Hk'.
  { unfold admitted. by rewrite list_lookup_imap, Hk. }
  rewrite Hadm in Hk'. cbn in Hk'. rewrite app_nil_r in Hk'.
  rewrite Forall_forall in Hskipped.
  specialize (Hskipped _ (list_elem_of_lookup_2 _ _ _ Hk')).
  unfold eligible in Hskipped. cbn in Hskipped.
  by rewrite Hadmits, bool_decide_eq_true_2 in Hskipped.
Qed.

Lemma ServeHTTP_nextServer b clock b' h :
  ServeHTTP b clock = Some (b', served_by h) ↔
  nextServer b clock = Some (b', inl h).
Proof.
  unfold ServeHTTP, nextServer. destruct (_ || _); [done|].
  destruct (nextServer_loop _ _ _ _) as [[[b2 popped] [h'|]]|]; [| |done].
  - split; intros; by simplify_eq.
  - by rewrite bool_decide_eq_true_2.
Qed.

(** X6.  [ServeHTTP] finds a server whenever the pool holds a handler that
    is up and whose bucket admits: such a call is never answered with
    [errNoAvailableServer]. *)
Theorem served_when_some_bucket_admits b clock h :
  h ∈ handlers b →
  name h ∈ status b →
  (∀ now, (Allow now (bucket h)).1 = true) →
  ∃ b' h', ServeHTTP b clock = Some (b', served_by h').
Proof. apply some_eligible_served. Qed.

(** X7.  A child marked down by [SetStatus] is not served: the next
    [ServeHTTP] hands the request to no handler of that name. *)
Theorem down_child_not_served b n clock b' h :
  ServeHTTP (SetStatus b n false).1 clock = Some (b', served_by h) →
  name h ≠ n.
Proof.
  intros Hserved Hname.
  destruct (ServeHTTP_spec (SetStatus b n false).1 clock)
    as (b2 & r & Heq & _ & _ & _ & Hr).
  rewrite Hserved in Heq. simplify_eq. destruct Hr as [_ Hel].
  unfold eligible in Hel. apply andb_true_iff in Hel as [Hup%bool_decide_eq_true _].
  destruct (SetStatus_frame b (name h) false) as (_ & _ & _ & Hst).
  rewrite Hst in Hup. apply elem_of_difference in Hup as [_ Hup].
  by apply Hup, elem_of_singleton.
Qed.

Lemma size_positive (st : gset string) : (0 <? size st) = negb (bool_decide (st = ∅)).
Proof.
  case_bool_decide as Hst.
  - by rewrite Hst, size_empty.
  - apply Nat.ltb_lt. apply Nat.neq_0_lt_0. intros Hsize.
    by apply Hst, leibniz_equiv, size_empty_iff.
Qed.

Lemma difference_singleton_empty (st : gset string) (n : string) :
  st ∖ {[n]} = ∅ ↔ st = ∅ ∨ st = {[n]}.
Proof.
  split.
  - intros Hd. destruct (decide (n ∈ st)) as [Hn|Hn].
    + right. apply set_eq. intros x. rewrite elem_of_singleton. split.
      * intros Hx. destruct (decide (x = n)) as [->|Hne]; [done|].
        assert (x ∈ st ∖ {[n]}) as Hx'.
        { apply elem_of_difference. split; [done|]. by rewrite elem_of_singleton. }
        rewrite Hd in Hx'. by apply elem_of_empty in Hx'.
      * by intros ->.
    + left. rewrite <-Hd. symmetry. apply set_eq. intros x.
      rewrite elem_of_difference, elem_of_singleton. split; [by intros [? _]|].
      intros Hx. split; [done|]. by intros ->.
  - intros [->| ->].
    + apply set_eq. intros x. rewrite elem_of_difference.
      split; [by intros [?%elem_of_empty _]|by intros ?%elem_of_empty].
    + apply set_eq. intros x. rewrite elem_of_difference.
      split; [by intros [? ?]|by intros ?%elem_of_empty].
Qed.

Lemma SetStatus_calls b n up :
  (SetStatus b n up).2 =
    if (if up then bool_decide (status b = ∅)
        else bool_decide (status b = {[n]}))
    then (λ fn, (fn, up)) <$> updaters b
    else [].
Proof.
  unfold SetStatus. destruct up; cbn [with_status status updaters].
  - rewrite !size_positive.
    rewrite (bool_decide_eq_false_2 ({[n]} ∪ status b = ∅)); last first.
    { intros Hu. assert (n ∈ ({[n]} ∪ status b)) as Hn.
      { apply elem_of_union. left. by apply elem_of_singleton. }
      rewrite Hu in Hn. by apply elem_of_empty in Hn. }
    by case_bool_decide.
  - rewrite !size_positive.
    destruct (bool_decide (status b = {[n]})) eqn:Hone.
    + apply bool_decide_eq_true in Hone.
      rewrite (bool_decide_eq_false_2 (status b = ∅)); last first.
      { rewrite Hone. intros Hs. assert (n ∈ ({[n]} : gset string)) as Hn
          by by apply elem_of_singleton.
        rewrite Hs in Hn. by apply elem_of_empty in Hn. }
      rewrite (bool_decide_eq_true_2 (status b ∖ {[n]} = ∅)); [done|].
      apply difference_singleton_empty. by right.
    + apply bool_decide_eq_false in Hone.
      case_bool_decide as Hempty.
      * rewrite (bool_decide_eq_true_2 (status b ∖ {[n]} = ∅)); [done|].
        apply difference_singleton_empty. by left.
      * rewrite (bool_decide_eq_false_2 (status b ∖ {[n]} = ∅)); [done|].
        rewrite difference_singleton_empty. by intros [?|?].
Qed.

(** X8.  [SetStatus] calls the updaters in two situations only: a child is
    marked up while no child was up, or the only child that was up is
    marked down.  It then calls each of them once, in the order of
    [b.updaters], with the new status. *)
Theorem SetStatus_notifies_iff b n up :
  (SetStatus b n up).2 =
    if (if up then bool_decide (status b = ∅)
        else bool_decide (status b = {[n]}))
    then (λ fn, (fn, up)) <$> updaters b
    else [].
Proof. apply SetStatus_calls. Qed.

(** X16.  Marking down a child that is up and marking it up again gives
    back the health state there was.  The updaters hear of it, with
    [false] and then with [true], exactly when it was the only child up. *)
Theorem down_then_up_restores b n :
  n ∈ status b →
  status (SetStatus (SetStatus b n false).1 n true).1 = status b ∧
  handlers (SetStatus (SetStatus b n false).1 n true).1 = handlers b ∧
  (SetStatus b n false).2 ++ (SetStatus (SetStatus b n false).1 n true).2 =
    if bool_decide (status b = {[n]})
    then ((λ fn, (fn, false)) <$> updaters b) ++ ((λ fn, (fn, true)) <$> updaters b)
    else [].
Proof.
  intros Hn.
  destruct (SetStatus_frame b n false) as (_ & Hh & Hu & Hst).
  destruct (SetStatus_frame (SetStatus b n false).1 n true) as (_ & Hh' & _ & Hst').
  split_and!.
  - rewrite Hst', Hst. apply set_eq. intros x.
    rewrite elem_of_union, elem_of_difference, elem_of_singleton.
    split; [by intros [->|[? _]]|].
    intros Hx. destruct (decide (x = n)) as [->|Hne]; [by left|by right].
  - by rewrite Hh', Hh.
  - rewrite !SetStatus_calls, Hst, Hu.
    case_bool_decide as Hone.
    + rewrite bool_decide_eq_true_2; [done|].
      apply difference_singleton_empty. by right.
    + rewrite bool_decide_eq_false_2; [done|].
      rewrite difference_singleton_empty. intros [He|?]; [|done].
      rewrite He in Hn. by apply elem_of_empty in Hn.
Qed.

Lemma mark_down_all_cons b n names :
  mark_down_all b (n :: names) =
    ((mark_down_all (SetStatus b n false).1 names).1,
     (SetStatus b n false).2 ++ (mark_down_all (SetStatus b n false).1 names).2).
Proof.
  unfold mark_down_all. cbn [foldl fst snd app].
  generalize (SetStatus b n false).2. generalize (SetStatus b n false).1.
  induction names as [|m names IH]; intros b1 tr; cbn [foldl fst snd].
  { by rewrite app_nil_r. }
  rewrite IH, (IH _ ([] ++ _)). cbn [fst snd app]. by rewrite app_assoc.
Qed.

Lemma mark_down_all_frame b names :
  handlers (mark_down_all b names).1 = handlers b ∧
  updaters (mark_down_all b names).1 = updaters b ∧
  wantsHealthCheck (mark_down_all b names).1 = wantsHealthCheck b.
Proof.
  revert b. induction names as [|n names IH]; intros b; [done|].
  rewrite mark_down_all_cons. cbn [fst].
  destruct (IH (SetStatus b n false).1) as (-> & -> & ->).
  by destruct (SetStatus_frame b n false) as (-> & -> & -> & _).
Qed.

Lemma mark_down_all_empty b names :
  status b = ∅ →
  status (mark_down_all b names).1 = ∅ ∧ (mark_down_all b names).2 = [].
Proof.
  revert b. induction names as [|n names IH]; intros b Hst; [done|].
  rewrite mark_down_all_cons. cbn [fst snd].
  destruct (SetStatus_frame b n false) as (_ & _ & _ & Hst').
  destruct (IH (SetStatus b n false).1) as [-> ->].
  { rewrite Hst', Hst. apply difference_singleton_empty. by left. }
  split; [done|]. rewrite app_nil_r, SetStatus_calls.
  rewrite bool_decide_eq_false_2; [done|]. rewrite Hst. intros He.
  assert (n ∈ ({[n]} : gset string)) as Hn by by apply elem_of_singleton.
  rewrite <-He in Hn. by apply elem_of_empty in Hn.
Qed.

Lemma mark_down_all_spec names b :
  status b ≠ ∅ →
  (∀ n, n ∈ status b → n ∈ names) →
  (mark_down_all b names).2 = (λ fn, (fn, false)) <$> updaters b ∧
  status (mark_down_all b names).1 = ∅.
Proof.
  revert b. induction names as [|n names IH]; intros b Hne Hcover.
  { exfalso. apply Hne, set_eq. intros x.
    split; [by intros ?%Hcover%elem_of_nil|by intros ?%elem_of_empty]. }
  rewrite mark_down_all_cons. cbn [fst snd].
  destruct (SetStatus_frame b n false) as (_ & _ & Hu & Hst).
  rewrite SetStatus_calls.
  destruct (decide (status b = {[n]})) as [Hone|Hone].
  - rewrite (bool_decide_eq_true_2 _ Hone).
    destruct (mark_down_all_empty (SetStatus b n false).1 names) as [Hs Htr].
    { rewrite Hst. apply difference_singleton_empty. by right. }
    by rewrite Hs, Htr, app_nil_r.
  - rewrite (bool_decide_eq_false_2 _ Hone). cbn [app]. rewrite <-Hu. apply IH.
    + rewrite Hst, difference_singleton_empty. by intros [?|?].
    + intros m. rewrite Hst, elem_of_difference, elem_of_singleton.
      intros [Hm Hmn]. apply Hcover, elem_of_cons in Hm as [->|Hm]; done.
Qed.

Lemma served_is_up b clock b' h :
  ServeHTTP b clock = Some (b', served_by h) → name h ∈ status b.
Proof.
  intros Hserved.
  destruct (ServeHTTP_spec b clock) as (b2 & r & Heq & _ & _ & _ & Hr).
  rewrite Hserved in Heq. simplify_eq. destruct Hr as [_ Hel].
  unfold eligible in Hel.
  by apply andb_true_iff in Hel as [Hup%bool_decide_eq_true _].
Qed.

(** X9.  When the children that are up are marked down one after the
    other, in any order and among any other names, the updaters are called
    exactly once each, with [false], by the call that takes the last one
    down; after it no child is up, and the pool is as it was. *)
Theorem mark_down_all_notifies_once b names :
  status b ≠ ∅ →
  (∀ n, n ∈ status b → n ∈ names) →
  (mark_down_all b names).2 = (λ fn, (fn, false)) <$> updaters b ∧
  status (mark_down_all b names).1 = ∅ ∧
  handlers (mark_down_all b names).1 = handlers b.
Proof.
  intros Hne Hcover.
  destruct (mark_down_all_spec names b Hne Hcover) as [Htr Hst].
  by destruct (mark_down_all_frame b names) as (Hh & _ & _).
Qed.

Lemma step_updaters b c :
  updaters (step b c) =
    match c with
    | call_RegisterStatusUpdater fn =>
        if wantsHealthCheck b then updaters b ++ [fn] else updaters b
    | _ => updaters b
    end.
Proof.
  destruct c as [n h bu a p prio|n up|fn|clock]; cbn [step].
  - destruct (decide (default 1 a ≤ 0)%Z) as [Ha|Ha].
    + by rewrite Add_dropped.
    + by destruct (Add_created b n h bu a p prio) as (? & _ & (_ & _ & ->) & _); [lia|].
  - by destruct (SetStatus_frame b n up) as (_ & _ & -> & _).
  - unfold RegisterStatusUpdater. by destruct (wantsHealthCheck b).
  - by destruct (ServeHTTP_spec b clock) as (b' & r & -> & (_ & _ & ->) & _).
Qed.

Lemma run_updaters b calls :
  updaters (run b calls) =
    updaters b ++ (if wantsHealthCheck b then registered calls else []).
Proof.
  unfold run. revert b. induction calls as [|c calls IH]; intros b; cbn [foldl].
  { unfold registered. cbn. by destruct (wantsHealthCheck b); rewrite app_nil_r. }
  rewrite IH, step_wantsHealthCheck, step_updaters.
  destruct c as [n h bu a p prio|n up|fn|clock]; try done.
  unfold registered. cbn [omap]. destruct (wantsHealthCheck b); [|done].
  by rewrite <-app_assoc.
Qed.

(** X10.  The updaters of a balancer are those handed to
    [RegisterStatusUpdater] since [New], in the order of the calls, if it
    was made with [wantHealthCheck], and none otherwise: on a balancer made
    without it, no call of [SetStatus] ever calls an updater. *)
Theorem updaters_are_the_registered (wantHealthCheck : bool) (calls : list Call) :
  updaters (run (New wantHealthCheck : LBm) calls)
    = (if wantHealthCheck then registered calls else []) ∧
  ∀ n up, (SetStatus (run (New false : LBm) calls) n up).2 = [].
Proof.
  split.
  - by rewrite run_updaters.
  - intros n up. rewrite SetStatus_calls, run_updaters. cbn.
    by destruct (if up then _ else _).
Qed.

Lemma step_pool_names_perm b c :
  pool_names (step b c) ≡ₚ pool_names b ++ created [c].
Proof.
  destruct c as [n h bu a p prio|n up|fn|clock]; cbn [step]; unfold created;
    cbn [omap]; rewrite ?app_nil_r.
  - destruct (0 <? default 1 a)%Z eqn:Ha.
    + apply Z.ltb_lt in Ha.
      destruct (Add_created b n h bu a p prio Ha)
        as (e & Hperm & _ & _ & _ & Hname & _).
      unfold pool_names. rewrite Hperm, fmap_cons, Hname. cbn.
      rewrite (proj2 (Z.ltb_lt _ _) Ha). apply Permutation_cons_append.
    + apply Z.ltb_ge in Ha. rewrite Add_dropped by done. cbn.
      rewrite (proj2 (Z.ltb_ge _ _) Ha). by rewrite app_nil_r.
  - unfold pool_names. by destruct (SetStatus_frame b n up) as (_ & -> & _).
  - unfold pool_names.
    by destruct (RegisterStatusUpdater_frame b fn) as (_ & -> & _).
  - destruct (ServeHTTP_spec b clock) as (b' & r & -> & _ & Hperm & _).
    by apply pool_names_entry.
Qed.

Lemma created_cons (c : @Call Handler_t Updater) calls :
  created (c :: calls) = created [c] ++ created calls.
Proof.
  unfold created. destruct c as [n h bu a p prio|n up|fn|clock]; cbn; try done.
  by destruct (0 <? default 1 a)%Z.
Qed.

(** X11.  The pool holds one entry for each call of [Add] with a positive
    average (or none given) since [New], under the name given to the call,
    and nothing else: no operation removes an entry and [ServeHTTP] puts
    back every entry it takes out. *)
Theorem pool_names_are_the_created (wantHealthCheck : bool) (calls : list Call) :
  pool_names (run (New wantHealthCheck : LBm) calls) ≡ₚ created calls ∧
  Len (run (New wantHealthCheck : LBm) calls) = length (created calls).
Proof.
  assert (∀ b : LBm, pool_names (run b calls) ≡ₚ pool_names b ++ created calls)
    as Hgen.
  { unfold run. induction calls as [|c calls IH]; intros b; cbn [foldl].
    { unfold created. cbn. by rewrite app_nil_r. }
    by rewrite IH, step_pool_names_perm, (created_cons c calls), (assoc_L (++)). }
  specialize (Hgen (New wantHealthCheck)). cbn in Hgen. split; [done|].
  apply Permutation_length in Hgen. unfold pool_names in Hgen.
  by rewrite length_fmap in Hgen.
Qed.

(** X12.  With more than one token per nanosecond, an average above
    1000000 times the period in milliseconds, the division that gives the
    refill interval comes to zero: the bucket of the entry is made by
    [rate.Every] of a zero interval. *)
Theorem Add_interval_truncates_to_zero b n handler bu (a p : Z) prio :
  (0 < p ≤ 9223372036854)%Z →
  (Millisecond * p < a)%Z →
  ∃ h,
    handlers (Add b n handler bu (Some a) (Some p) prio) ≡ₚ h :: handlers b ∧
    name h = n ∧ average h = a ∧ period h = (p * Millisecond)%Z ∧
    bucket h = NewLimiterEvery 0%Z (burst h).
Proof.
  intros Hp Ha. unfold Millisecond in *.
  destruct (Add_created b n handler bu (Some a) (Some p) prio)
    as (h & Hperm & _ & _ & _ & Hn & _ & Hav & Hper & _ & Hb & _); [cbn; lia|].
  cbn in Hav, Hper.
  rewrite (proj2 (Z.leb_gt _ _)) in Hper by lia.
  rewrite wrap64_small in Hper by (unfold Millisecond; lia).
  unfold Millisecond in Hper.
  exists h. split_and!; [done..|lia|]. rewrite Hb, Hper, Hav.
  by rewrite Z.quot_small by lia.
Qed.

(** X13.  [ServeHTTP] leaves the health state alone: whatever it answers,
    [status], the updaters and [wantsHealthCheck] are after the call what
    they were before. *)
Theorem ServeHTTP_leaves_health_alone b clock :
  ∃ b' r,
    ServeHTTP b clock = Some (b', r) ∧
    status b' = status b ∧ updaters b' = updaters b ∧
    wantsHealthCheck b' = wantsHealthCheck b.
Proof.
  destruct (ServeHTTP_spec b clock) as (b' & r & Heq & (Hw & Hs & Hu) & _).
  by exists b', r.
Qed.
(** X17.  The entry with the smallest priority value of all gets the
    request whenever it is up and its bucket admits at the first check of
    the call. *)
Theorem least_priority_served (wantHealthCheck : bool) (calls : list Call)
    clock h :
  h ∈ handlers (run (New wantHealthCheck : LBm) calls) →
  (∀ x, x ∈ handlers (run (New wantHealthCheck : LBm) calls) →
     x = h ∨ (priority h < priority x)%Z) →
  name h ∈ status (run (New wantHealthCheck : LBm) calls) →
  (Allow (clock 0) (bucket h)).1 = true →
  ∃ b',
    ServeHTTP (run (New wantHealthCheck : LBm) calls) clock
      = Some (b', served_by (admit_at (clock 0) h)).
Proof.
  set (b := run (New wantHealthCheck) calls). intros Hh Hleast Hup Hadmit.
  destruct (ServeHTTP_cases b clock) as [[[Hnil|Hst] _]|(_ & _ & Hloop)].
  { rewrite Hnil in Hh. by apply elem_of_nil in Hh. }
  { rewrite Hst in Hup. by apply elem_of_empty in Hup. }
  destruct Hloop as (b2 & scanned & rest & chosen & Heq & Hperm & _ & Hout & Hord).
  destruct (Hord (reachable_ordered b (ex_intro _ _ (ex_intro _ _ eq_refl))))
    as (Hsorted & Hmin).
  destruct Hout as (skipped & Hadm & Hskipped & Hch).
  destruct scanned as [|y scanned].
  { exfalso. unfold admitted in Hadm. cbn in Hadm.
    destruct skipped; [|done]. destruct chosen; [done|]. subst rest.
    rewrite Hperm in Hh. by apply elem_of_nil in Hh. }
  assert (y = h) as ->.
  { destruct (Hleast y) as [?|Hlt]; [|done|exfalso].
    { rewrite Hperm. by left. }
    rewrite Hperm in Hh. cbn in Hh.
    apply elem_of_cons in Hh as [->|Hh]; [lia|].
    apply elem_of_app in Hh as [Hh|Hh].
    - cbn in Hsorted. apply StronglySorted_cons in Hsorted as [Hall _].
      rewrite Forall_fmap, Forall_forall in Hall. specialize (Hall h Hh).
      cbn in Hall. lia.
    - apply Forall_cons in Hmin as [Hall _].
      rewrite Forall_forall in Hall. specialize (Hall h Hh). lia. }
  unfold admitted in Hadm. rewrite imap_cons in Hadm. cbn in Hadm.
  destruct skipped as [|s0 skipped].
  - destruct chosen as [h'|]; [|done]. cbn in Hadm. simplify_eq. by exists b2.
  - exfalso. cbn in Hadm. simplify_eq. apply Forall_cons in Hskipped as [Hel _].
    unfold eligible in Hel. cbn in Hel.
    by rewrite Hadmit, bool_decide_eq_true_2 in Hel.
Qed.

Lemma newTestBalancer_S (handler : Handler_t) n :
  newTestBalancer handler (S n) =
    Add (newTestBalancer handler n : LBm) ("srv-" +:+ pretty n) handler
      (Some 1000000%Z) (Some 1000000%Z) (Some 1%Z) (Some 1%Z).
Proof. unfold newTestBalancer. by rewrite seq_S, foldl_app. Qed.

Lemma newTestBalancer_pool (handler : Handler_t) n :
  length (handlers (newTestBalancer handler n : LBm)) = n ∧
  pool_names (newTestBalancer handler n : LBm)
    ≡ₚ (λ i, "srv-" +:+ pretty i) <$> seq 0 n ∧
  Forall (λ h, name h ∈ status (newTestBalancer handler n : LBm) ∧
               priority h = 1%Z ∧
               bucket h = NewLimiterEvery 1%Z 1000000%Z)
         (handlers (newTestBalancer handler n : LBm)).
Proof.
  induction n as [|n (IHlen & IHnames & IHall)]; [done|].
  rewrite newTestBalancer_S.
  destruct (Add_created (newTestBalancer handler n : LBm) ("srv-" +:+ pretty n)
              handler (Some 1000000%Z) (Some 1000000%Z) (Some 1%Z) (Some 1%Z))
    as (h & Hperm & (_ & Hst & _) & _ & _ & Hn & Hbu & Hav & Hper & Hprio & Hb & _);
    [done|].
  split_and!.
  - rewrite Hperm. cbn. by rewrite IHlen.
  - unfold pool_names. rewrite Hperm, seq_S, fmap_app, fmap_cons, Hn. cbn.
    rewrite <-Permutation_cons_append. by constructor.
  - rewrite Hperm, Hst. constructor.
    + split_and!; [apply elem_of_union; left; by apply elem_of_singleton|done|].
      by rewrite Hb, Hper, Hav, Hbu.
    + eapply Forall_impl; [exact IHall|]. intros x (Hx & ? & ?).
      split_and!; [|done..]. apply elem_of_union. by right.
Qed.

(** X15.  The balancer that [newTestBalancer] builds for the benchmark
    holds [bucketCount] entries, named "srv-0" to "srv-(bucketCount-1)" and
    all different, each of priority 1.  With at least one of them and a
    limiter that admits from a new bucket, the first [nextServer] returns a
    server and no error, as [BenchmarkNextServer] requires. *)
Theorem newTestBalancer_serves (handler : Handler_t) (bucketCount : nat) clock :
  0 < bucketCount →
  (∀ now, (Allow now (NewLimiterEvery 1%Z 1000000%Z)).1 = true) →
  Len (newTestBalancer handler bucketCount : LBm) = bucketCount ∧
  NoDup (pool_names (newTestBalancer handler bucketCount : LBm)) ∧
  pool_names (newTestBalancer handler bucketCount : LBm)
    ≡ₚ (λ i, "srv-" +:+ pretty i) <$> seq 0 bucketCount ∧
  ∃ b' h,
    nextServer (newTestBalancer handler bucketCount : LBm) clock
      = Some (b', inl h).
Proof.
  intros Hpos Hadmits.
  destruct (newTestBalancer_pool handler bucketCount) as (Hlen & Hnames & Hall).
  split_and!; [done| |done|].
  - rewrite Hnames. apply NoDup_fmap_2; [|apply NoDup_seq].
    intros i j Hij. apply (inj (String.append "srv-")) in Hij.
    by apply (inj pretty) in Hij.
  - destruct (handlers (newTestBalancer handler bucketCount : LBm))
      as [|h hs] eqn:Hhs; [cbn in Hlen; lia|].
    apply Forall_cons in Hall as [(Hup & _ & Hb) _].
    destruct (some_eligible_served (newTestBalancer handler bucketCount) clock h)
      as (b' & h' & Hserved).
    + rewrite Hhs. by left.
    + done.
    + by rewrite Hb.
    + exists b', h'. by apply ServeHTTP_nextServer.
Qed.
End more.

Section tree.
Context {Handler_t Updater Limiter : Type} `{!rate_Limiter Limiter}.

(** X14.  A balancer that is an entry of another and reports to it through
    one hook: once all its children that were up have been marked down,
    the parent has had one call, which marks that entry down, and the
    parent serves no request through that entry. *)
Theorem child_down_marks_parent_entry_down
    (child : @LBBalancer Handler_t string Limiter)
    (parent : @LBBalancer Handler_t Updater Limiter)
    (entry_name : string) (names : list string) :
  updaters child = [entry_name] →
  status child ≠ ∅ →
  (∀ n, n ∈ status child → n ∈ names) →
  (mark_down_all child names).2 = [(entry_name, false)] ∧
  ¬ (entry_name ∈ status (notify parent (mark_down_all child names).2)) ∧
  ∀ clock b' h,
    ServeHTTP (notify parent (mark_down_all child names).2) clock
      = Some (b', served_by h) →
    name h ≠ entry_name.
Proof.
  intros Hu Hne Hcover.
  destruct (mark_down_all_spec names child Hne Hcover) as (-> & _).
  rewrite Hu. cbn.
  assert (entry_name ∉ status (SetStatus parent entry_name false).1) as Hdown.
  { destruct (SetStatus_frame parent entry_name false) as (_ & _ & _ & ->).
    rewrite elem_of_difference, elem_of_singleton. by intros [_ ?]. }
  split_and!; [done..|].
  intros clock b' h Hserved Hname. apply served_is_up in Hserved.
  by rewrite Hname in Hserved.
Qed.
End tree.
End lblb_proofs.

(** ** Scenarios on the token bucket *)

Module scenario_proofs.
Import lblb scenario.
Local Open Scope Z_scope.

Example three_backends_pool :
  (λ h, (name h, priority h, burst h, period h)) <$> handlers (three_backends : Balancer)
  = [("A", 1, 1, 3000000); ("B", 2, 1, 2000000); ("C", 3, 2, 1000000)].
Proof. vm_compute. reflexivity. Qed.

(** Half a period unit apart the four calls go to A, B, C and C, the
    counts of [TestLBBalancer]. *)
Example half_unit_apart :
  dispatches (three_backends : Balancer) [0; 500000; 1000000; 1500000]
  = [Some "A"; Some "B"; Some "C"; Some "C"].
Proof. vm_compute. reflexivity. Qed.

Lemma Allow_granted now i b f l f' :
  0 < i → 1 ≤ b →
  f' = Z.min (b * i) (f + (now - Z.min l now)) - i → 0 ≤ f' →
  rate.Allow now (rate.mkLimiter i b f l) = (true, rate.mkLimiter i b f' now).
Proof.
  intros Hi Hb -> Hf. unfold rate.Allow, rate.advance.
  cbn [rate.interval rate.burst rate.fill rate.last].
  by rewrite (proj2 (Z.leb_gt _ _) Hi), (proj2 (Z.leb_le _ _) Hf),
    (proj2 (Z.leb_le _ _) Hb).
Qed.

Lemma Allow_denied now i b f l :
  0 < i → Z.min (b * i) (f + (now - Z.min l now)) - i < 0 →
  rate.Allow now (rate.mkLimiter i b f l) = (false, rate.mkLimiter i b f l).
Proof.
  intros Hi Hf. unfold rate.Allow, rate.advance.
  cbn [rate.interval rate.burst rate.fill rate.last].
  by rewrite (proj2 (Z.leb_gt _ _) Hi), (proj2 (Z.leb_gt _ _) Hf).
Qed.

Lemma dispatches_cons {L : Type} (inst : rate_Limiter L)
    (b : @LBBalancer unit nat L) t times :
  @dispatches L inst b (t :: times) =
    match @ServeHTTP unit nat L inst b (λ _, t) with
    | Some (b', served_by h) => Some (name h) :: @dispatches L inst b' times
    | Some (b', http_Error _ _) => None :: @dispatches L inst b' times
    | None => []
    end.
Proof. reflexivity. Qed.

Ltac serve_step :=
  rewrite (dispatches_cons _);
  match goal with
  | |- context [@ServeHTTP ?H ?U ?L ?inst ?b ?c] =>
      let r := eval vm_compute in (@ServeHTTP H U L inst b c) in
      replace (@ServeHTTP H U L inst b c) with r by (vm_compute; reflexivity)
  end.

(** Who serves the four calls is settled by the admission decisions, for
    any limiter: A admitted at the first call; A refused and B admitted at
    the second; A and B refused and C admitted at the third; A admitted
    again at the fourth. *)
Lemma served_by_decisions {Limiter : Type} (new : Duration → Z → Limiter)
    (allow : Time → Limiter → bool * Limiter)
    (t0 t1 t2 t3 : Time) (a1 a2 a3 a4 b1 b2 c1 : Limiter) :
  allow t0 (new 3000000 1) = (true, a1) →
  allow t1 a1 = (false, a2) →
  allow t1 (new 2000000 1) = (true, b1) →
  allow t2 a2 = (false, a3) →
  allow t2 b1 = (false, b2) →
  allow t2 (new 1000000 2) = (true, c1) →
  allow t3 a3 = (true, a4) →
  @dispatches Limiter (limiter_of new allow)
     (@three_backends Limiter (limiter_of new allow)) [t0; t1; t2; t3]
    = [Some "A"; Some "B"; Some "C"; Some "A"].
Proof.
  intros HA0 HA1 HB1 HA2 HB2 HC2 HA3.
  serve_step. rewrite HA0. cbv beta iota delta [name].
  serve_step. rewrite HA1, HB1. cbv beta iota delta [name].
  serve_step. rewrite HA2, HB2, HC2. cbv beta iota delta [name].
  serve_step. rewrite HA3. cbv beta iota delta [name].
  reflexivity.
Qed.

(** C1, as amended.  With the three backends A (priority 1, burst 1, one
    token per 3 ms), B (priority 2, burst 1, one per 2 ms) and C
    (priority 3, burst 2, one per 1 ms), all up and with full buckets, four
    calls of [ServeHTTP] one millisecond apart, from any time on, go to A,
    B, C and A again: A twice, B once, C once.  By the fourth call the
    bucket of A holds a whole token again. *)
Theorem one_unit_apart_A_B_C_A (t0 : Time) :
  dispatches (three_backends : Balancer)
    [t0; t0 + Millisecond; t0 + 2 * Millisecond; t0 + 3 * Millisecond]
    = [Some "A"; Some "B"; Some "C"; Some "A"] ∧
  times_served "A"
    (dispatches (three_backends : Balancer)
       [t0; t0 + Millisecond; t0 + 2 * Millisecond; t0 + 3 * Millisecond]) = 2%nat ∧
  times_served "B"
    (dispatches (three_backends : Balancer)
       [t0; t0 + Millisecond; t0 + 2 * Millisecond; t0 + 3 * Millisecond]) = 1%nat ∧
  times_served "C"
    (dispatches (three_backends : Balancer)
       [t0; t0 + Millisecond; t0 + 2 * Millisecond; t0 + 3 * Millisecond]) = 1%nat.
Proof.
  assert (dispatches (three_backends : Balancer)
            [t0; t0 + Millisecond; t0 + 2 * Millisecond; t0 + 3 * Millisecond]
          = [Some "A"; Some "B"; Some "C"; Some "A"]) as ->.
  { unfold Millisecond.
    apply (served_by_decisions rate.NewLimiter rate.Allow _ _ _ _
             (rate.mkLimiter 3000000 1 0 t0)
             (rate.mkLimiter 3000000 1 0 t0)
             (rate.mkLimiter 3000000 1 0 t0)
             (rate.mkLimiter 3000000 1 0 (t0 + 3 * 1000000))
             (rate.mkLimiter 2000000 1 0 (t0 + 1000000))
             (rate.mkLimiter 2000000 1 0 (t0 + 1000000))
             (rate.mkLimiter 1000000 2 1000000 (t0 + 2 * 1000000)));
      (apply Allow_granted || apply Allow_denied); lia. }
  by vm_compute.
Qed.

(** C1 as stated fails: the four calls do not go to A once, B once and C
    twice. *)
Lemma one_unit_apart_not_A_B_C_C :
  ¬ (times_served "A" (dispatches (three_backends : Balancer) [0; 1000000; 2000000; 3000000]) = 1%nat ∧
     times_served "B" (dispatches (three_backends : Balancer) [0; 1000000; 2000000; 3000000]) = 1%nat ∧
     times_served "C" (dispatches (three_backends : Balancer) [0; 1000000; 2000000; 3000000]) = 2%nat).
Proof. vm_compute. intros [? _]. discriminate. Qed.

(** C2 as stated fails: [SetStatus] does not look the name up, so one call
    on a new balancer puts into [status] a name that no entry of the pool
    has. *)
Lemma unknown_child_marked_up :
  ¬ (∀ b : Balancer, reachable b →
       ∀ n, n ∈ status b → ∃ h, h ∈ handlers b ∧ name h = n).
Proof.
  intros Hclaim.
  destruct (Hclaim (run (New false) [call_SetStatus "ghost" true])
              (ex_intro _ false (ex_intro _ _ eq_refl)) "ghost")
    as (h & Hh & _).
  - cbn. apply elem_of_union. left. by apply elem_of_singleton.
  - cbn in Hh. by apply elem_of_nil in Hh.
Qed.

(** On the three backends, with A marked down and up again. *)
Lemma healthy_names_in_pool_witness :
  marks_known_children (New false : Balancer)
    (three_backends_calls ++ [call_SetStatus "A" false; call_SetStatus "A" true]) ∧
  ∀ n, n ∈ status (run (New false : Balancer)
                     (three_backends_calls ++
                        [call_SetStatus "A" false; call_SetStatus "A" true])) →
    ∃ h, h ∈ handlers (run (New false : Balancer)
                         (three_backends_calls ++
                            [call_SetStatus "A" false; call_SetStatus "A" true])) ∧
         name h = n.
Proof.
  split.
  - vm_compute. repeat split. apply list_elem_of_here.
  - apply (lblb_proofs.healthy_names_in_pool false).
    vm_compute. repeat split. apply list_elem_of_here.
Defined.

(** The token that a backend that is down loses: "A" is down and first in
    line, the call is served by "B", and "A" comes back into the pool with
    its bucket empty. *)
Example token_spent_on_unhealthy_entry :
  fills first_down = [("A", 3000000); ("B", 2000000)] ∧
  serve_at first_down 0 = Some (Some "B", [("A", 0); ("B", 0)]).
Proof. vm_compute. done. Qed.

(** One round on the three backends. *)
Lemma selection_loop_bounded_ascending_witness :
  reachable (three_backends : Balancer) ∧
  ∃ b' popped chosen,
    nextServer_loop (S (Len (three_backends : Balancer))) (λ _, 0) three_backends []
      = Some (b', popped, chosen) ∧
    (length popped ≤ Len (three_backends : Balancer))%nat ∧
    StronglySorted Z.le (priority <$> popped).
Proof.
  split.
  - exists false, three_backends_calls. reflexivity.
  - destruct (lblb_proofs.selection_loop_bounded_ascending (three_backends : Balancer) (λ _, 0))
      as (b' & scanned & rest & chosen & Hloop & _ & Hlen & Hsorted & _).
    + exists false, three_backends_calls. reflexivity.
    + exists b', (admitted (λ _, 0) 0 scanned), chosen.
      exact (conj Hloop (conj Hlen Hsorted)).
Defined.

(** A fourth backend with average 0 leaves the three backends as they
    are. *)
Lemma Add_nonpositive_average_dropped_witness :
  (0 ≤ 0) ∧
  Add (three_backends : Balancer) "D" tt (Some 1) (Some 0) (Some 1) (Some 4)
    = three_backends.
Proof.
  split; [lia|].
  apply (lblb_proofs.Add_nonpositive_average_dropped
           (three_backends : Balancer) "D" tt (Some 1) 0 (Some 1) (Some 4)). lia.
Defined.

(** C7 as stated fails for the period: 9223372036855 is above the
    threshold and is not stored as that many milliseconds. *)
Lemma Add_period_overflow :
  period <$> handlers long_period = [-9223372036854551616] ∧
  ¬ (∀ h, h ∈ handlers long_period → period h = 9223372036855 * Millisecond).
Proof.
  split; [by vm_compute|]. intros Hclaim.
  specialize (Hclaim _ (list_elem_of_here _ _)). vm_compute in Hclaim. discriminate.
Qed.

(** Burst 0, period 0 and priority -2 come out as 1, 1 ms and 1. *)
Lemma Add_sanitizes_witness :
  (0 < default 1 (Some 1)) ∧
  ∃ h : Handler,
    handlers (Add (New false : Balancer) "A" tt (Some 0) (Some 1) (Some 0) (Some (-2)))
      ≡ₚ [h] ∧
    burst h = 1 ∧ priority h = 1 ∧ period h = Millisecond.
Proof.
  split; [cbn; lia|].
  destruct (lblb_proofs.Add_sanitizes (New false : Balancer) "A" tt
              (Some 0) (Some 1) (Some 0) (Some (-2)))
    as (h & Hperm & _ & _ & _ & Hbu & _ & Hprio & _ & Hp & _).
  - cbn. lia.
  - exists h. split_and!; [done|apply Hbu|apply Hprio|apply Hp]; cbn; lia.
Defined.


(** ** Instances of the further properties *)

Lemma fresh_bucket_admits every b now :
  1 ≤ b → (rate.Allow now (rate.NewLimiter every b)).1 = true.
Proof.
  intros Hb. unfold rate.NewLimiter.
  destruct (decide (every ≤ 0)) as [He|He].
  - unfold rate.Allow. cbn. by rewrite (proj2 (Z.leb_le _ _) He).
  - rewrite (Allow_granted now every b (b * every) 0 ((b - 1) * every));
      [done|lia|lia| |nia].
    assert (0 ≤ now - Z.min 0 now) by lia. nia.
Qed.

Lemma status_three_backends :
  status (three_backends : Balancer) = {["C"]} ∪ ({["B"]} ∪ ({["A"]} ∪ ∅)).
Proof. reflexivity. Qed.


(** The first call on the three backends is served by A. *)
Lemma served_first_in_priority_witness :
  ServeHTTP (run (New false : Balancer) three_backends_calls) (λ _, 0)
    = Some (state_after three_backends 0,
            served_by (backend "A" 1 1 3000000 0 0 true)) ∧
  "A" ∈ status (run (New false : Balancer) three_backends_calls).
Proof.
  assert (ServeHTTP (run (New false : Balancer) three_backends_calls) (λ _, 0)
            = Some (state_after three_backends 0,
                    served_by (backend "A" 1 1 3000000 0 0 true))) as Hs.
  { vm_compute. reflexivity. }
  split; [exact Hs|].
  exact (proj1 (lblb_proofs.served_first_in_priority false three_backends_calls
                  (λ _, 0) _ _ Hs)).
Defined.


(** The three backends, all up and with new buckets, serve the first
    call. *)
Lemma served_when_some_bucket_admits_witness :
  backend "A" 1 1 3000000 3000000 0 true ∈ handlers (three_backends : Balancer) ∧
  "A" ∈ status (three_backends : Balancer) ∧
  (∀ now, (Allow now (bucket (backend "A" 1 1 3000000 3000000 0 true))).1 = true) ∧
  ∃ b' h', ServeHTTP (three_backends : Balancer) (λ _, 0) = Some (b', served_by h').
Proof.
  assert (backend "A" 1 1 3000000 3000000 0 true
            ∈ handlers (three_backends : Balancer)) as H1.
  { vm_compute. apply list_elem_of_here. }
  assert ("A" ∈ status (three_backends : Balancer)) as H2.
  { rewrite status_three_backends. apply elem_of_union. right.
    apply elem_of_union. right. apply elem_of_union. left.
    by apply elem_of_singleton. }
  assert (∀ now, (Allow now (bucket (backend "A" 1 1 3000000 3000000 0 true))).1
                 = true) as H3.
  { intros now. apply (fresh_bucket_admits 3000000 1). lia. }
  split_and!; [done..|].
  exact (lblb_proofs.served_when_some_bucket_admits _ (λ _, 0) _ H1 H2 H3).
Defined.

(** With A marked down the first call goes to B. *)
Lemma down_child_not_served_witness :
  ServeHTTP (SetStatus (three_backends : Balancer) "A" false).1 (λ _, 0)
    = Some (state_after (SetStatus three_backends "A" false).1 0,
            served_by (backend "B" 2 1 2000000 0 0 true)) ∧
  name (backend "B" 2 1 2000000 0 0 true) ≠ "A".
Proof.
  assert (ServeHTTP (SetStatus (three_backends : Balancer) "A" false).1 (λ _, 0)
            = Some (state_after (SetStatus three_backends "A" false).1 0,
                    served_by (backend "B" 2 1 2000000 0 0 true))) as Hs.
  { vm_compute. reflexivity. }
  split; [exact Hs|].
  exact (lblb_proofs.down_child_not_served _ _ _ _ _ Hs).
Defined.

Lemma status_balancer2 :
  status balancer2 = {["fourth"]} ∪ ({["third"]} ∪ ∅).
Proof. reflexivity. Qed.

Lemma balancer2_up : status balancer2 ≠ ∅.
Proof.
  rewrite status_balancer2. intros He.
  assert ("fourth" ∈ ({["fourth"]} ∪ ({["third"]} ∪ ∅) : gset string)) as Hin.
  { apply elem_of_union. left. by apply elem_of_singleton. }
  rewrite He in Hin. by apply elem_of_empty in Hin.
Qed.

Lemma balancer2_children n :
  n ∈ status balancer2 → n ∈ ["fourth"; "third"].
Proof.
  rewrite status_balancer2, !elem_of_union, !elem_of_singleton.
  intros [->|[->|?%elem_of_empty]]; [by left|by right; left|done].
Qed.

(** "fourth" and "third" marked down on balancer2: one call of its hook,
    with [false]. *)
Lemma mark_down_all_notifies_once_witness :
  status balancer2 ≠ ∅ ∧
  (∀ n, n ∈ status balancer2 → n ∈ ["fourth"; "third"]) ∧
  (mark_down_all balancer2 ["fourth"; "third"]).2 = [("balancer2", false)].
Proof.
  split_and!; [exact balancer2_up|exact balancer2_children|].
  exact (proj1 (lblb_proofs.mark_down_all_notifies_once balancer2
                  ["fourth"; "third"] balancer2_up balancer2_children)).
Defined.

(** An average of 1000001 with a period of 1 ms. *)
Lemma Add_interval_truncates_to_zero_witness :
  (0 < 1 ≤ 9223372036854) ∧ (Millisecond * 1 < 1000001) ∧
  ∃ h : Handler,
    handlers (Add (New false : Balancer) "fast" tt (Some 1) (Some 1000001)
                (Some 1) (Some 1)) ≡ₚ [h] ∧
    bucket h = rate.NewLimiter 0 (burst h).
Proof.
  assert (0 < 1 ≤ 9223372036854) as H1 by lia.
  assert (Millisecond * 1 < 1000001) as H2 by (unfold Millisecond; lia).
  split_and!; [done..|].
  destruct (lblb_proofs.Add_interval_truncates_to_zero (New false : Balancer)
              "fast" tt (Some 1) 1000001 1 (Some 1) H1 H2)
    as (h & Hperm & _ & _ & _ & Hb).
  by exists h.
Defined.

(** balancer2 under the top balancer of [TestLBBalancerPropagate]. *)
Lemma child_down_marks_parent_entry_down_witness :
  updaters balancer2 = ["balancer2"] ∧
  status balancer2 ≠ ∅ ∧
  (∀ n, n ∈ status balancer2 → n ∈ ["fourth"; "third"]) ∧
  ¬ ("balancer2" ∈ status (notify topBalancer
                             (mark_down_all balancer2 ["fourth"; "third"]).2)).
Proof.
  assert (updaters balancer2 = ["balancer2"]) as H1 by reflexivity.
  split_and!; [exact H1|exact balancer2_up|exact balancer2_children|].
  exact (proj1 (proj2 (lblb_proofs.child_down_marks_parent_entry_down
                         balancer2 topBalancer "balancer2" ["fourth"; "third"]
                         H1 balancer2_up balancer2_children))).
Defined.

(** The benchmark's balancer with one bucket. *)
Lemma newTestBalancer_serves_witness :
  (0 < 1)%nat ∧
  (∀ now, (Allow now (NewLimiterEvery 1 1000000 : rate.Limiter)).1 = true) ∧
  Len (newTestBalancer tt 1 : Balancer) = 1%nat.
Proof.
  assert (0 < 1)%nat as H1 by lia.
  assert (∀ now, (Allow now (NewLimiterEvery 1 1000000 : rate.Limiter)).1 = true)
    as H2.
  { intros now. apply (fresh_bucket_admits 1 1000000). lia. }
  split_and!; [done..|].
  exact (proj1 (lblb_proofs.newTestBalancer_serves tt 1 (λ _, 0) H1 H2)).
Defined.

Lemma A_is_up : "A" ∈ status (three_backends : Balancer).
Proof.
  rewrite status_three_backends. apply elem_of_union. right.
  apply elem_of_union. right. apply elem_of_union. left.
  by apply elem_of_singleton.
Qed.

(** A marked down and up again on the three backends. *)
Lemma down_then_up_restores_witness :
  "A" ∈ status (three_backends : Balancer) ∧
  status (SetStatus (SetStatus (three_backends : Balancer) "A" false).1 "A" true).1
    = status (three_backends : Balancer).
Proof.
  split; [exact A_is_up|].
  exact (proj1 (lblb_proofs.down_then_up_restores
                  (three_backends : Balancer) "A" A_is_up)).
Defined.

(** A, first in line on the three backends, up and with a full bucket. *)
Lemma least_priority_served_witness :
  backend "A" 1 1 3000000 3000000 0 true
    ∈ handlers (run (New false : Balancer) three_backends_calls) ∧
  (∀ x, x ∈ handlers (run (New false : Balancer) three_backends_calls) →
     x = backend "A" 1 1 3000000 3000000 0 true ∨
     priority (backend "A" 1 1 3000000 3000000 0 true) < priority x) ∧
  "A" ∈ status (run (New false : Balancer) three_backends_calls) ∧
  (Allow 0 (bucket (backend "A" 1 1 3000000 3000000 0 true))).1 = true ∧
  ∃ b',
    ServeHTTP (run (New false : Balancer) three_backends_calls) (λ _, 0)
      = Some (b', served_by (admit_at 0 (backend "A" 1 1 3000000 3000000 0 true))).
Proof.
  assert (backend "A" 1 1 3000000 3000000 0 true
            ∈ handlers (run (New false : Balancer) three_backends_calls)) as H1.
  { vm_compute. apply list_elem_of_here. }
  assert (∀ x, x ∈ handlers (run (New false : Balancer) three_backends_calls) →
            x = backend "A" 1 1 3000000 3000000 0 true ∨
            priority (backend "A" 1 1 3000000 3000000 0 true) < priority x) as H2.
  { intros x Hx. vm_compute in Hx.
    apply elem_of_cons in Hx as [->|Hx]; [by left|].
    repeat (apply elem_of_cons in Hx as [->|Hx]; [right; cbn; lia|]).
    by apply elem_of_nil in Hx. }
  assert ((Allow 0 (bucket (backend "A" 1 1 3000000 3000000 0 true))).1 = true)
    as H4 by reflexivity.
  split_and!; [exact H1|exact H2|exact A_is_up|exact H4|].
  exact (lblb_proofs.least_priority_served false three_backends_calls (λ _, 0)
           _ H1 H2 A_is_up H4).
Defined.
End scenario_proofs.
